(** * memoize-ts: the default comparator [compareValues] and the [memoize] cache

    A shallow embedding of [src/memoize.ts].  JavaScript values live in an
    explicit store: primitives are immediate, objects (arrays, [Map]s, plain
    objects and class instances, regular expressions, dates, functions) are
    reached through references, so that aliasing and self-referential object
    graphs can be written down.  [compareValues] recurses exactly as the source
    does; the depth of the JavaScript call stack is the [fuel] argument, and
    [None] stands for a recursion that did not come back within that depth. *)

From Stdlib Require Import ZArith String.
From Stdlib Require Import Floats.SpecFloat.
From stdpp Require Import base option list gmap strings sorting pretty.

Open Scope string_scope.
Open Scope list_scope.

(** ** Values and the store *)

Definition loc := nat.

(** A JavaScript value: the primitives, or a reference to an object. Numbers
    are IEEE 754 doubles ([spec_float]): [S754_nan] is [NaN], and the two
    zeros are distinct values. *)
Inductive val :=
  | Undefined
  | Null
  | Boolean (b : bool)
  | Number (f : spec_float)
  | BigInt (z : Z)
  | Str (s : string)
  | Symbol (id : nat)
  | Ref (l : loc).

(** The objects the comparator tells apart.  [ArrayObj] is an array without
    holes; [SparseArrayObj] is an array some positions of which may be empty
    ([None]), such as [[, 1]] or [new Array(3)]: its length counts the holes,
    its own properties do not.  [MapObj] keeps its entries in insertion
    order; [PlainObj] lists the own enumerable string-keyed properties in
    [Object.keys] order (class instances are plain objects here); regular
    expressions, dates and functions have no own enumerable property. *)
Inductive object :=
  | ArrayObj (elems : list val)
  | SparseArrayObj (slots : list (option val))
  | MapObj (entries : list (val * val))
  | PlainObj (props : list (string * val))
  | RegExpObj (source flags : string)
  | DateObj (time : spec_float)
  | FunctionObj (code : string).

Abbreviation heap := (gmap loc object).

(** The result of [typeof]. *)
Inductive jstype :=
  | TUndefined | TObject | TBoolean | TNumber | TBigInt | TString | TSymbol
  | TFunction.

Definition jstype_eqb (a b : jstype) : bool :=
  match a, b with
  | TUndefined, TUndefined | TObject, TObject | TBoolean, TBoolean
  | TNumber, TNumber | TBigInt, TBigInt | TString, TString
  | TSymbol, TSymbol | TFunction, TFunction => true
  | _, _ => false
  end.

Section Store.
Variable h : heap.

(** The object behind a reference.  Stores are meant to be closed; a dangling
    reference reads as an object without properties. *)
Definition object_of (l : loc) : object := default (PlainObj []) (h !! l).

Definition typeof (v : val) : jstype :=
  match v with
  | Undefined => TUndefined
  | Null => TObject
  | Boolean _ => TBoolean
  | Number _ => TNumber
  | BigInt _ => TBigInt
  | Str _ => TString
  | Symbol _ => TSymbol
  | Ref l => match object_of l with FunctionObj _ => TFunction | _ => TObject end
  end.

(** [left === right]: numbers by IEEE equality (so [NaN] differs from itself
    and [+0] equals [-0]), objects by reference. *)
Definition strict_equals (left right : val) : bool :=
  match left, right with
  | Undefined, Undefined => true
  | Null, Null => true
  | Boolean a, Boolean b => Bool.eqb a b
  | Number a, Number b => SFeqb a b
  | BigInt a, BigInt b => Z.eqb a b
  | Str a, Str b => String.eqb a b
  | Symbol a, Symbol b => Nat.eqb a b
  | Ref a, Ref b => Nat.eqb a b
  | _, _ => false
  end.

(** The key comparison of [Map.prototype.get] (SameValueZero): as [===], but
    [NaN] is the same as [NaN]. *)
Definition same_value_zero (a b : val) : bool :=
  match a, b with
  | Number S754_nan, Number S754_nan => true
  | _, _ => strict_equals a b
  end.

(** [Array.isArray(v)], giving what the array holds at each position: an
    element, or nothing at a hole. *)
Definition as_array (v : val) : option (list (option val)) :=
  match v with
  | Ref l =>
    match object_of l with
    | ArrayObj es => Some (Some <$> es)
    | SparseArrayObj slots => Some slots
    | _ => None
    end
  | _ => None
  end.

(** [o instanceof Map], giving the entries. *)
Definition as_map (o : object) : option (list (val * val)) :=
  match o with MapObj es => Some es | _ => None end.

Definition is_null (v : val) : bool :=
  match v with Null => true | _ => false end.

(** Primitive values: everything but a reference. *)
Definition is_primitive (v : val) : bool :=
  match v with Ref _ => false | _ => true end.

(** The object a non-null value of type ["object"] denotes. *)
Definition to_object (v : val) : object :=
  match v with Ref l => object_of l | _ => PlainObj [] end.

End Store.

(** The property name of an array index. *)
Definition index_key (i : nat) : string := pretty i.

(** [Object.entries(o)]: own enumerable string-keyed properties; a hole of an
    array is not a property. *)
Definition object_entries (o : object) : list (string * val) :=
  match o with
  | ArrayObj es => imap (fun i v => (index_key i, v)) es
  | SparseArrayObj slots =>
    omap id (imap (fun i slot => (fun v => (index_key i, v)) <$> slot) slots)
  | PlainObj props => props
  | MapObj _ | RegExpObj _ _ | DateObj _ | FunctionObj _ => []
  end.

(** [Object.keys(o)]. *)
Definition object_keys (o : object) : list string := (object_entries o).*1.

(** [o[key]] for an own enumerable property; [undefined] when there is none.
    The comparator reads [right[leftKey]] only after the two key lists were
    found equal, so only own enumerable properties are ever read. *)
Definition get_prop (o : object) (key : string) : val :=
  match List.find (fun kv => String.eqb kv.1 key) (object_entries o) with
  | Some (_, v) => v
  | None => Undefined
  end.

(** [m.get(key)] on the entries of a [Map]. *)
Definition map_get (entries : list (val * val)) (key : val) : val :=
  match List.find (fun kv => same_value_zero kv.1 key) entries with
  | Some (_, v) => v
  | None => Undefined
  end.

(** [a[i]]: [undefined] out of range. *)
Definition js_index (a : list val) (i : nat) : val :=
  default Undefined (a !! i).

(** [a[i]] on an array that may have holes: [undefined] at a hole too. *)
Definition slot_index (a : list (option val)) (i : nat) : val :=
  match a !! i with
  | Some (Some v) => v
  | _ => Undefined
  end.

(** [keys.sort()]: the default sort orders strings by their code units. *)
Definition string_le (a b : string) : Prop := String.leb a b = true.

#[global] Instance string_le_dec (a b : string) : Decision (string_le a b).
Proof. unfold string_le. apply _. Defined.

Definition sort_keys (keys : list string) : list string :=
  merge_sort string_le keys.

(** ** The default comparator *)

(** [a.every(f)]: stops at the first element on which [f] is false; a call of
    [f] that does not come back makes the whole loop not come back. The
    callback receives the element and its index. *)
Fixpoint every_from {A} (f : A -> nat -> option bool) (i : nat) (a : list A)
  : option bool :=
  match a with
  | [] => Some true
  | x :: a' =>
    match f x i with
    | Some true => every_from f (S i) a'
    | r => r
    end
  end.

Definition every {A} (f : A -> nat -> option bool) (a : list A) : option bool :=
  every_from f 0 a.

(** [a.every(f)] on an array that may have holes: the callback is not called
    at a hole, and the index keeps counting. *)
Fixpoint every_present_from {A} (f : A -> nat -> option bool) (i : nat)
    (a : list (option A)) : option bool :=
  match a with
  | [] => Some true
  | None :: a' => every_present_from f (S i) a'
  | Some x :: a' =>
    match f x i with
    | Some true => every_present_from f (S i) a'
    | r => r
    end
  end.

Definition every_present {A} (f : A -> nat -> option bool) (a : list (option A))
  : option bool :=
  every_present_from f 0 a.

(** The array case of [compareValues] (source lines 37-39), with the recursive
    call as a parameter. *)
Definition compareSlots (recur : val -> val -> option bool)
  (left right : list (option val)) : option bool :=
  if negb (Nat.eqb (length left) (length right)) then Some false
  else every_present (fun leftValue i => recur leftValue (slot_index right i)) left.

(** The array case on two arrays without holes, such as the key arrays of
    lines 51 and 63 and the argument arrays of two calls. *)
Definition compareArrays (recur : val -> val -> option bool)
  (left right : list val) : option bool :=
  if negb (Nat.eqb (length left) (length right)) then Some false
  else every (fun leftValue i => recur leftValue (js_index right i)) left.

(** The loop of the array case, read pairwise. *)
Fixpoint every2 (f : val -> val -> option bool) (l r : list val) : option bool :=
  match l, r with
  | x :: l', y :: r' =>
    match f x y with
    | Some true => every2 f l' r'
    | o => o
    end
  | _, _ => Some true
  end.

Section Compare.
Variable h : heap.

(** [compareValues(left, right)] (source lines 30-76).  [fuel] bounds the depth
    of nested calls; [None] is a comparison that needs a deeper stack.  The two
    key arrays handed to the recursive calls at lines 51 and 63 are fresh
    arrays: they are not [===], both are of type ["object"] and both are
    arrays, so that call is one more level of depth and then the array case. *)
Fixpoint compareValues (fuel : nat) (left right : val) : option bool :=
  match fuel with
  | O => None
  | S fuel' =>
    let compareFresh (l r : list val) : option bool :=
      match fuel' with
      | O => None
      | S fuel'' => compareArrays (compareValues fuel'') l r
      end in
    if strict_equals left right then Some true
    else if negb (jstype_eqb (typeof h left) (typeof h right)) then Some false
    else
      match as_array h left, as_array h right with
      | Some ls, Some rs => compareSlots (compareValues fuel') ls rs
      | _, _ =>
        if jstype_eqb (typeof h left) TObject && jstype_eqb (typeof h right) TObject
        then
          if is_null left || is_null right then Some false
          else
            let lo := to_object h left in
            let ro := to_object h right in
            match as_map lo, as_map ro with
            | Some lm, Some rm =>
              if negb (Nat.eqb (length lm) (length rm)) then Some false
              else
                match compareFresh lm.*1 rm.*1 with
                | Some true =>
                  every (fun kv _ => compareValues fuel' kv.2 (map_get rm kv.1)) lm
                | Some false => Some false
                | None => None
                end
            | _, _ =>
              let leftKeys := object_keys lo in
              let rightKeys := object_keys ro in
              if negb (Nat.eqb (length leftKeys) (length rightKeys)) then Some false
              else
                match compareFresh (Str <$> sort_keys leftKeys)
                                   (Str <$> sort_keys rightKeys) with
                | Some true =>
                  every (fun kv _ => compareValues fuel' kv.2 (get_prop ro kv.1))
                        (object_entries lo)
                | Some false => Some false
                | None => None
                end
            end
        else Some false
      end
  end.

End Compare.

(** [compareValues] applied to two arrays that are not in the store and are
    not the same array, such as the argument arrays of two calls. *)
Definition compareFreshArrays (h : heap) (fuel : nat) (left right : list val)
  : option bool :=
  match fuel with
  | O => None
  | S fuel' => compareArrays (compareValues h fuel') left right
  end.

(** Two objects that reach the generic branch (lines 58-70): not both arrays,
    not both [Map]s, neither a function. *)
Definition generic_pair (lo ro : object) : bool :=
  match lo, ro with
  | (ArrayObj _ | SparseArrayObj _), (ArrayObj _ | SparseArrayObj _) => false
  | MapObj _, MapObj _ => false
  | FunctionObj _, _ | _, FunctionObj _ => false
  | _, _ => true
  end.

(** ** The memoization cache *)

(** What a call can end in: a returned value or a thrown exception. *)
Inductive exn :=
  | RangeError          (* maximum call stack size exceeded *)
  | TypeError           (* reading a property of undefined, calling a method that is absent *)
  | Raised (v : val).   (* thrown by the wrapped function or by a comparison function *)

Inductive outcome (A : Type) :=
  | Returned (a : A)
  | Thrown (e : exn).
Arguments Returned {A} a.
Arguments Thrown {A} e.

(** [{ key: unknown[]; value: T }] *)
Record CacheEntry (T : Type) := { key : list val; value : T }.
Arguments key {T} _.
Arguments value {T} _.

(** [a.findIndex(p)]: the index of the first element satisfying [p], or [-1]. *)
Fixpoint findIndex_from {A} (p : A -> outcome bool) (i : Z) (a : list A)
  : outcome Z :=
  match a with
  | [] => Returned (-1)%Z
  | x :: a' =>
    match p x with
    | Returned true => Returned i
    | Returned false => findIndex_from p (i + 1)%Z a'
    | Thrown e => Thrown e
    end
  end.

Definition findIndex {A} (p : A -> outcome bool) (a : list A) : outcome Z :=
  findIndex_from p 0%Z a.

Section Memoize.
Context {T : Type}.
(** The store the argument values point into, and the stack depth available to
    the default comparator. The wrapped function is pure here: it neither
    changes the store nor uses the memoized function while it runs
    ([memoizedFn_reentrant] below is [memoizedFn] for one that does). *)
Variable h : heap.
Variable stack : nat.
(** [fn], its declared number of parameters [fn.length], and the optional
    custom comparison function. *)
Variable fn : list val -> outcome T.
Variable fn_length : nat.
Variable comparisonFn : option (list val -> list val -> outcome bool).

(** The state of one memoized function: its [cache], and a record of the
    argument lists [fn] has been invoked with, most recent first. *)
Record state := { cache : list (CacheEntry T); invoked : list (list val) }.

(** [memoize(fn, comparisonFn)] starts from an empty cache (line 198). *)
Definition memoize : state := {| cache := []; invoked := [] |}.

(** [compareValues(key, cacheEntry)] on two argument arrays; exhausting the
    stack surfaces as a [RangeError]. *)
Definition compareValues_args (key args : list val) : outcome bool :=
  match compareFreshArrays h stack key args with
  | Some b => Returned b
  | None => Thrown RangeError
  end.

(** [comparisonFn ?? compareValues] (line 202). *)
Definition activePredicate : list val -> list val -> outcome bool :=
  match comparisonFn with
  | Some f => f
  | None => compareValues_args
  end.

(** [findCacheIndex] (lines 200-203). *)
Definition findCacheIndex (c : list (CacheEntry T)) (cacheEntry : list val)
  : outcome Z :=
  findIndex (fun e => activePredicate (key e) cacheEntry) c.

(** An entry matches an argument list when the active predicate says so; the
    invariant of the data model: no argument list is matched by two entries. *)
Definition matches (args : list val) (e : CacheEntry T) : bool :=
  match activePredicate (key e) args with
  | Returned true => true
  | _ => false
  end.

Definition at_most_one_match (c : list (CacheEntry T)) : Prop :=
  forall args, length (List.filter (matches args) c) <= 1.

(** [memoizedFn(...args)] (lines 205-220). *)
Definition memoizedFn (args : list val) (st : state) : outcome T * state :=
  match findCacheIndex (cache st) args with
  | Thrown e => (Thrown e, st)
  | Returned index =>
    if negb (index =? -1)%Z then
      match cache st !! Z.to_nat index with
      | Some e => (Returned (value e), st)
      | None => (Thrown TypeError, st)
      end
    else
      match fn args with
      | Returned v =>
        (Returned v,
         {| cache := {| key := args; value := v |} :: cache st;
            invoked := args :: invoked st |})
      | Thrown e =>
        (Thrown e, {| cache := cache st; invoked := args :: invoked st |})
      end
  end.

(** [memoizedFn.clearAll()] (lines 222-224). *)
Definition clearAll (st : state) : outcome unit * state :=
  (Returned tt, {| cache := []; invoked := invoked st |}).

(** [memoizedFn.clearEntry(...args)] (lines 227-233); the method only exists
    when [fn.length > 0]. *)
Definition clearEntry (args : list val) (st : state) : outcome unit * state :=
  if (0 <? fn_length)%nat then
    match findCacheIndex (cache st) args with
    | Thrown e => (Thrown e, st)
    | Returned index =>
      if negb (index =? -1)%Z then
        (Returned tt,
         {| cache := delete (Z.to_nat index) (cache st); invoked := invoked st |})
      else (Returned tt, st)
    end
  else (Thrown TypeError, st).

(** [memoizedFn.getCache()] (line 235). *)
Definition getCache (st : state) : list (CacheEntry T) := cache st.

(** The operations of a memoized function, and the state after running some. *)
Inductive operation :=
  | Call (args : list val)
  | ClearEntry (args : list val)
  | ClearAll.

Definition step (st : state) (o : operation) : state :=
  match o with
  | Call args => (memoizedFn args st).2
  | ClearEntry args => (clearEntry args st).2
  | ClearAll => (clearAll st).2
  end.

Definition run (ops : list operation) (st : state) : state :=
  foldl step st ops.

End Memoize.

(** ** Concrete stores *)

(** The number literal with the integer value [z]. *)
Definition num (z : Z) : val := Number (binary_normalize 53 1024 z 0 false).

Definition NaN : val := Number S754_nan.

Module ListNodes.
(** The linked lists of the test suite:
    [class ListNode { constructor(public value, public previous?) {} }]. *)
Definition ListNode (v : Z) (previous : val) : object :=
  PlainObj [("value", num v); ("previous", previous)].

Definition m1 : val := Ref 1.
Definition m2 : val := Ref 2.
Definition m3 : val := Ref 3.
Definition n1 : val := Ref 4.
Definition n2 : val := Ref 5.
Definition n3 : val := Ref 6.
Definition o1 : val := Ref 7.
Definition o2 : val := Ref 8.
Definition o3 : val := Ref 9.
Definition p1 : val := Ref 10.
Definition p2 : val := Ref 11.
Definition p3 : val := Ref 12.

(** [m], [n] and [o] are circular ([x1.previous = x3]); [p] is not. *)
Definition store : heap :=
  list_to_map
    [ (1, ListNode 1 m3);
      (2, ListNode 2 m1);
      (3, ListNode 3 m2);
      (4, ListNode 1 n3);
      (5, ListNode 2 n1);
      (6, ListNode 3 n2);
      (7, ListNode 10 o3);
      (8, ListNode 20 o1);
      (9, ListNode 30 o2);
      (10, ListNode 1 Undefined);
      (11, ListNode 2 p1);
      (12, ListNode 3 p2) ].
End ListNodes.

Module Shapes.
(** Values of the different categories. *)
Definition emptyArray : val := Ref 1.
Definition emptyObject : val := Ref 2.
Definition mapA1 : val := Ref 3.
Definition mapA2 : val := Ref 4.
Definition re_abc : val := Ref 5.
Definition re_abcd : val := Ref 6.
Definition date1 : val := Ref 7.
Definition date2 : val := Ref 8.
Definition negate1 : val := Ref 9.
Definition negate2 : val := Ref 10.
Definition xy : val := Ref 11.
Definition yx : val := Ref 12.
Definition keyObj1 : val := Ref 13.
Definition keyObj2 : val := Ref 14.
Definition mapK12 : val := Ref 15.
Definition mapK21 : val := Ref 16.
Definition mapXY : val := Ref 17.
Definition mapYX : val := Ref 18.

Definition store : heap :=
  list_to_map
    [ (1, ArrayObj []);
      (2, PlainObj []);
      (3, MapObj [(Str "a", num 1)]);
      (4, MapObj [(Str "a", num 2)]);
      (5, RegExpObj "abc" "");
      (6, RegExpObj "abcd" "");
      (7, DateObj (binary_normalize 53 1024 1706756400000 0 false));
      (8, DateObj (binary_normalize 53 1024 1738292400000 0 false));
      (9, FunctionObj "(n) => -n");
      (10, FunctionObj "(n) => -n");
      (11, PlainObj [("x", num 1); ("y", num 2)]);
      (12, PlainObj [("y", num 2); ("x", num 1)]);
      (13, PlainObj []);
      (14, PlainObj []);
      (15, MapObj [(keyObj1, num 1); (keyObj2, num 1)]);
      (16, MapObj [(keyObj2, num 1); (keyObj1, num 1)]);
      (17, MapObj [(Str "x", num 1); (Str "y", num 2)]);
      (18, MapObj [(Str "y", num 2); (Str "x", num 1)]) ].

(** A wrapped function that returns its first argument, and one that throws it. *)
Definition first_arg (args : list val) : outcome val :=
  Returned (js_index args 0).

Definition thrower (args : list val) : outcome val :=
  Thrown (Raised (js_index args 0)).

(** A custom comparison function: the first arguments have the same [typeof]. *)
Definition same_typeof (leftArgs rightArgs : list val) : outcome bool :=
  Returned (jstype_eqb (typeof store (js_index leftArgs 0))
                       (typeof store (js_index rightArgs 0))).

(** The cache of [memoize(first_arg)] after it was called with one [Map] and
    then with another. *)
Definition two_maps_cached : state :=
  run store 4 first_arg 1 None [Call [mapA1]; Call [mapA2]] memoize.

(** The cache of [memoize(first_arg)] after it was called with one [Map]. *)
Definition one_map_cached : state :=
  run store 4 first_arg 1 None [Call [mapA1]] memoize.
End Shapes.

Module KeyedMaps.
(** Two [Map]s with the same pairs in a different order, keyed by the objects
    [{a: 1}] and [{a: 2}]. *)
Definition keyA1 : val := Ref 1.
Definition keyA2 : val := Ref 2.
Definition map12 : val := Ref 3.
Definition map21 : val := Ref 4.

Definition store : heap :=
  list_to_map
    [ (1, PlainObj [("a", num 1)]);
      (2, PlainObj [("a", num 2)]);
      (3, MapObj [(keyA1, Str "one"); (keyA2, Str "two")]);
      (4, MapObj [(keyA2, Str "two"); (keyA1, Str "one")]) ].
End KeyedMaps.

Module Holes.
(** [[, 1]], [[2, 1]], [[undefined, 1]] and [new Array(2)]. *)
Definition hole1 : val := Ref 1.
Definition two1 : val := Ref 2.
Definition undefined1 : val := Ref 3.
Definition empty2 : val := Ref 4.

Definition store : heap :=
  list_to_map
    [ (1, SparseArrayObj [None; Some (num 1)]);
      (2, ArrayObj [num 2; num 1]);
      (3, ArrayObj [Undefined; num 1]);
      (4, SparseArrayObj [None; None]) ].
End Holes.

(** ** The comparator of the distributed build *)

Section CompareDist.
Variable h : heap.

(** [compareValues] as shipped in [dist/memoize.js] (lines 6-32): the same
    function without the [Map] case, so that every pair of objects that are
    not both arrays goes through the key comparison. *)
Fixpoint compareValues_dist (fuel : nat) (left right : val) : option bool :=
  match fuel with
  | O => None
  | S fuel' =>
    let compareFresh (l r : list val) : option bool :=
      match fuel' with
      | O => None
      | S fuel'' => compareArrays (compareValues_dist fuel'') l r
      end in
    if strict_equals left right then Some true
    else if negb (jstype_eqb (typeof h left) (typeof h right)) then Some false
    else
      match as_array h left, as_array h right with
      | Some ls, Some rs => compareSlots (compareValues_dist fuel') ls rs
      | _, _ =>
        if jstype_eqb (typeof h left) TObject && jstype_eqb (typeof h right) TObject
        then
          if is_null left || is_null right then Some false
          else
            let lo := to_object h left in
            let ro := to_object h right in
            let leftKeys := object_keys lo in
            let rightKeys := object_keys ro in
            if negb (Nat.eqb (length leftKeys) (length rightKeys)) then Some false
            else
              match compareFresh (Str <$> sort_keys leftKeys)
                                 (Str <$> sort_keys rightKeys) with
              | Some true =>
                every (fun kv _ => compareValues_dist fuel' kv.2 (get_prop ro kv.1))
                      (object_entries lo)
              | Some false => Some false
              | None => None
              end
        else Some false
      end
  end.

End CompareDist.

(** ** What the cache holds *)

(** Every entry holds what [fn] returns for its key, its key is among the
    argument lists [fn] was invoked with, and there are no more entries than
    invocations. *)
Definition sound {T : Type} (fn : list val -> outcome T) (st : state) : Prop :=
  Forall (fun e => fn (key e) = Returned (value e) /\ key e ∈ invoked st)
         (cache st) /\
  length (cache st) <= length (invoked st).

(** ** A wrapped function that uses the memoized function *)

(** What running the wrapped function on some arguments amounts to, as far as
    the cache is concerned: it returns, it throws, or it uses the memoized
    function it was wrapped into (calls it, as a recursive function does, or
    clears its cache) and goes on from the outcome, which it may catch. *)
Inductive prog (T : Type) :=
  | Ret (v : T)
  | Throw (e : exn)
  | CallSelf (args : list val) (k : outcome T -> prog T)
  | ClearEntrySelf (args : list val) (k : outcome unit -> prog T)
  | ClearAllSelf (k : prog T).
Arguments Ret {T} v.
Arguments Throw {T} e.
Arguments CallSelf {T} args k.
Arguments ClearEntrySelf {T} args k.
Arguments ClearAllSelf {T} k.

(** A wrapped function that does not use the memoized function. *)
Definition pure_prog {T : Type} (r : outcome T) : prog T :=
  match r with
  | Returned v => Ret v
  | Thrown e => Throw e
  end.

Section Reentrant.
Context {T : Type}.
Variable h : heap.
Variable stack : nat.
Variable fn : list val -> prog T.
Variable fn_length : nat.
Variable comparisonFn : option (list val -> list val -> outcome bool).

(** Running the body of [fn], with [self] the memoized function. *)
Fixpoint exec (self : list val -> state -> outcome T * state)
    (p : prog T) (st : state) : outcome T * state :=
  match p with
  | Ret v => (Returned v, st)
  | Throw e => (Thrown e, st)
  | CallSelf args k =>
    let r := self args st in exec self (k r.1) r.2
  | ClearEntrySelf args k =>
    let r := clearEntry (T:=T) h stack fn_length comparisonFn args st in
    exec self (k r.1) r.2
  | ClearAllSelf k => exec self k (clearAll (T:=T) st).2
  end.

(** [memoizedFn(...args)] (lines 205-220) for a wrapped function that may use
    the memoized function while it runs: the lookup (line 207) comes before
    [fn] runs and the insertion (line 216) after it, into the cache as [fn]
    left it.  [depth] bounds the nesting of calls; beyond it the stack is
    exhausted. *)
Fixpoint memoizedFn_reentrant (depth : nat) (args : list val) (st : state)
  : outcome T * state :=
  match depth with
  | O => (Thrown RangeError, st)
  | S depth' =>
    match findCacheIndex h stack comparisonFn (cache st) args with
    | Thrown e => (Thrown e, st)
    | Returned index =>
      if negb (index =? -1)%Z then
        match cache st !! Z.to_nat index with
        | Some e => (Returned (value e), st)
        | None => (Thrown TypeError, st)
        end
      else
        match exec (memoizedFn_reentrant depth') (fn args)
                   {| cache := cache st; invoked := args :: invoked st |} with
        | (Returned v, st1) =>
          (Returned v,
           {| cache := {| key := args; value := v |} :: cache st1;
              invoked := invoked st1 |})
        | (Thrown e, st1) => (Thrown e, st1)
        end
    end
  end.

Definition step_reentrant (depth : nat) (st : state) (o : operation) : state :=
  match o with
  | Call args => (memoizedFn_reentrant depth args st).2
  | ClearEntry args => (clearEntry (T:=T) h stack fn_length comparisonFn args st).2
  | ClearAll => (clearAll (T:=T) st).2
  end.

Definition run_reentrant (depth : nat) (ops : list operation) (st : state)
  : state :=
  foldl (step_reentrant depth) st ops.

(** The calls [fn] makes while it runs stay clear of the calls in progress:
    whenever a call misses the cache, its argument list is not equivalent to
    the argument list of any call that is still running ([pending]). *)
Fixpoint exec_clear (self_clear : list val -> state -> Prop)
    (self : list val -> state -> outcome T * state)
    (p : prog T) (st : state) : Prop :=
  match p with
  | Ret _ | Throw _ => True
  | CallSelf args k =>
    self_clear args st /\
    exec_clear self_clear self (k (self args st).1) (self args st).2
  | ClearEntrySelf args k =>
    let r := clearEntry (T:=T) h stack fn_length comparisonFn args st in
    exec_clear self_clear self (k r.1) r.2
  | ClearAllSelf k => exec_clear self_clear self k (clearAll (T:=T) st).2
  end.

Fixpoint call_clear (depth : nat) (pending : list (list val))
    (args : list val) (st : state) : Prop :=
  match depth with
  | O => True
  | S depth' =>
    match findCacheIndex h stack comparisonFn (cache st) args with
    | Thrown _ => True
    | Returned index =>
      if negb (index =? -1)%Z then True
      else
        Forall (fun p => activePredicate h stack comparisonFn p args
                         <> Returned true) pending /\
        exec_clear (call_clear depth' (args :: pending))
                   (memoizedFn_reentrant depth') (fn args)
                   {| cache := cache st; invoked := args :: invoked st |}
    end
  end.

Fixpoint run_clear (depth : nat) (ops : list operation) (st : state) : Prop :=
  match ops with
  | [] => True
  | o :: ops' =>
    match o with
    | Call args => call_clear depth [] args st
    | _ => True
    end /\ run_clear depth ops' (step_reentrant depth st o)
  end.

(** [fn] uses the memoized function only by calling it. *)
Fixpoint calls_only (p : prog T) : Prop :=
  match p with
  | Ret _ | Throw _ => True
  | CallSelf _ k => forall r, calls_only (k r)
  | ClearEntrySelf _ _ | ClearAllSelf _ => False
  end.

End Reentrant.

(** ** Well-formed stores *)

(** No object of the store is a [Map]. *)
Definition no_maps (h : heap) : bool :=
  forallb (fun lo => match as_map lo.2 with Some _ => false | None => true end)
          (map_to_list h).

(** The property names of every object are pairwise different, as they are
    in any JavaScript object. *)
Definition unique_keys (h : heap) : bool :=
  forallb (fun lo => bool_decide (NoDup (object_keys lo.2))) (map_to_list h).

(** No array of the store has a hole. *)
Definition no_holes (h : heap) : bool :=
  forallb (fun lo => match lo.2 with
                     | SparseArrayObj slots =>
                       forallb (fun slot => match slot with
                                            | Some _ => true
                                            | None => false
                                            end) slots
                     | _ => true
                     end)
          (map_to_list h).

(** ** Acyclic values *)

(** The values an object holds. *)
Definition children (o : object) : list val :=
  match o with
  | ArrayObj es => es
  | SparseArrayObj slots => omap id slots
  | MapObj entries => entries.*1 ++ entries.*2
  | PlainObj props => props.*2
  | RegExpObj _ _ | DateObj _ | FunctionObj _ => []
  end.

(** [v] is a primitive, or a reference ranked below [n]. *)
Definition rank_below (rk : gmap loc nat) (n : nat) (v : val) : bool :=
  match v with
  | Ref l => match rk !! l with Some k => (k <? n)%nat | None => false end
  | _ => true
  end.

(** A ranking of some objects of the store: whatever a ranked object holds is
    a primitive or an object of strictly lower rank. The objects a ranking
    covers are free of cycles, and any part of a store that is free of cycles
    has a ranking. *)
Definition ranked (h : heap) (rk : gmap loc nat) : bool :=
  forallb (fun ln => forallb (rank_below rk ln.2) (children (object_of h ln.1)))
          (map_to_list rk).

Module Recursive.
(** [n - 1] and [d > 0] on numbers. *)
Definition minus_one (v : val) : val :=
  match v with
  | Number f => Number (SFsub 53 1024 f (binary_normalize 53 1024 1 0 false))
  | _ => NaN
  end.

Definition positive (v : val) : bool :=
  match v with
  | Number f => SFltb (S754_zero false) f
  | _ => false
  end.

(** [g = memoize(n => { if (n === 0) return 0; g(n - 1); throw "failed" })] *)
Definition g (args : list val) : prog val :=
  let n := js_index args 0 in
  if strict_equals n (num 0) then Ret (num 0)
  else CallSelf [minus_one n]
         (fun r => match r with
                   | Returned _ => Throw (Raised (Str "failed"))
                   | Thrown e => Throw e
                   end).

(** [f = memoize((n, d) => d > 0 ? f(n, d - 1) : n,
                 (l, r) => typeof l[0] === typeof r[0])] *)
Definition f (args : list val) : prog val :=
  let n := js_index args 0 in
  let d := js_index args 1 in
  if positive d then CallSelf [n; minus_one d] pure_prog else Ret n.

(** [factorial] of the README, as far as its calls go: it calls itself on
    [n - 1] until [n <= 1]; the product is left out. *)
Definition countdown (args : list val) : prog val :=
  let n := js_index args 0 in
  if positive (minus_one n) then CallSelf [minus_one n] pure_prog else Ret n.

(** [k = memoize(x => typeof x === "number" ? k("text") : x,
                 (l, r) => typeof l[0] === typeof r[0])] *)
Definition k (args : list val) : prog val :=
  let x := js_index args 0 in
  match x with
  | Number _ => CallSelf [Str "text"] pure_prog
  | _ => Ret x
  end.
End Recursive.

Module Samples.
(** Arrays, an array-shaped object and [Map]s with equal contents. *)
Definition arr123 : val := Ref 1.
Definition arr123' : val := Ref 2.
Definition obj123 : val := Ref 3.
Definition mapXY : val := Ref 4.
Definition mapXY' : val := Ref 5.
Definition arr12 : val := Ref 6.
Definition objX : val := Ref 7.
Definition objXY : val := Ref 8.
Definition mapKeyed1 : val := Ref 11.
Definition mapKeyed2 : val := Ref 12.

Definition store : heap :=
  list_to_map
    [ (1, ArrayObj [num 10; num 20; num 30]);
      (2, ArrayObj [num 10; num 20; num 30]);
      (3, PlainObj [("0", num 10); ("1", num 20); ("2", num 30)]);
      (4, MapObj [(Str "x", num 1); (Str "y", num 2)]);
      (5, MapObj [(Str "x", num 1); (Str "y", num 2)]);
      (6, ArrayObj [num 10; num 20]);
      (7, PlainObj [("x", num 1)]);
      (8, PlainObj [("x", num 1); ("y", num 2)]);
      (9, PlainObj []);
      (10, PlainObj []);
      (11, MapObj [(Ref 9, Undefined)]);
      (12, MapObj [(Ref 10, num 5)]) ].

(** A store without [Map]s: two arrays holding objects with the same
    properties in different orders. *)
Definition nested1 : val := Ref 1.
Definition nested2 : val := Ref 2.

(** A ranking of the non-circular list [p] of [ListNodes.store]. *)
Definition p_ranks : gmap loc nat := list_to_map [(10, 0); (11, 1); (12, 2)].

Definition plain_store : heap :=
  list_to_map
    [ (1, ArrayObj [Ref 3; Str "a"]);
      (2, ArrayObj [Ref 4; Str "a"]);
      (3, PlainObj [("x", num 1); ("y", Null)]);
      (4, PlainObj [("y", Null); ("x", num 1)]) ].
End Samples.

(** * Properties of the comparator *)

Lemma SFeqb_refl f : f <> S754_nan -> SFeqb f f = true.
Proof.
  destruct f as [s|s| |s m e]; intros Hf; try done; unfold SFeqb; simpl.
  - by destruct s.
  - rewrite Z.compare_refl, Pos.compare_cont_refl. by destruct s.
Qed.

Lemma strict_equals_refl x : x <> NaN -> strict_equals x x = true.
Proof.
  destruct x; simpl; intros Hx; try done.
  - by destruct b.
  - apply SFeqb_refl. intros ->. by apply Hx.
  - apply Z.eqb_refl.
  - apply String.eqb_refl.
  - apply Nat.eqb_refl.
  - apply Nat.eqb_refl.
Qed.

Lemma jstype_eqb_eq a b : jstype_eqb a b = true <-> a = b.
Proof. destruct a, b; simpl; split; congruence. Qed.

Section CompareFacts.
Variable h : heap.

(** Rule 1 of the source: identical values are equal at once. *)
Lemma compareValues_identical fuel left right :
  strict_equals left right = true ->
  compareValues h (S fuel) left right = Some true.
Proof. intros H. cbn [compareValues]. by rewrite H. Qed.

(** Rule 2: values whose [typeof] differs are unequal. *)
Lemma compareValues_typeof fuel left right :
  typeof h left <> typeof h right ->
  compareValues h (S fuel) left right = Some false.
Proof.
  intros H. cbn [compareValues].
  destruct (strict_equals left right) eqn:E.
  - exfalso. apply H. destruct left, right; simpl in E; try done.
    apply Nat.eqb_eq in E. by subst.
  - destruct (jstype_eqb (typeof h left) (typeof h right)) eqn:Et; [|done].
    apply jstype_eqb_eq in Et. done.
Qed.

(** A primitive value is equal to another value exactly when they are [===]. *)
Lemma compareValues_primitive fuel left right :
  is_primitive left = true ->
  compareValues h (S fuel) left right = Some (strict_equals left right).
Proof.
  intros Hp. cbn [compareValues].
  destruct (strict_equals left right) eqn:E; [done|].
  destruct (jstype_eqb (typeof h left) (typeof h right)) eqn:Et; [|done].
  apply jstype_eqb_eq in Et. simpl.
  destruct left; try done; simpl in *; by rewrite <- ?Et.
Qed.

Lemma compareValues_primitive_r fuel left right :
  is_primitive right = true ->
  compareValues h (S fuel) left right = Some (strict_equals left right).
Proof.
  intros Hp. cbn [compareValues].
  destruct (strict_equals left right) eqn:E; [done|].
  destruct (jstype_eqb (typeof h left) (typeof h right)) eqn:Et; [|done].
  apply jstype_eqb_eq in Et. simpl.
  destruct right; try done; simpl in *; rewrite ?Et;
    destruct left; simpl in *; try done;
    destruct (object_of h l); try done.
  all: by rewrite ?orb_true_r.
Qed.

End CompareFacts.

(** * The stack depth only decides whether a comparison comes back *)

Lemma every_from_mono {A} (f g : A -> nat -> option bool) i a b :
  (forall x j c, f x j = Some c -> g x j = Some c) ->
  every_from f i a = Some b -> every_from g i a = Some b.
Proof.
  intros Hfg. revert i. induction a as [|x a IH]; intros i; simpl; [done|].
  destruct (f x i) as [[]|] eqn:Hf; [|intros [= <-]; by rewrite (Hfg _ _ _ Hf)|done].
  rewrite (Hfg _ _ _ Hf). apply IH.
Qed.

Lemma compareArrays_mono (f g : val -> val -> option bool) left right b :
  (forall x y c, f x y = Some c -> g x y = Some c) ->
  compareArrays f left right = Some b -> compareArrays g left right = Some b.
Proof.
  intros Hfg. unfold compareArrays, every. destruct (negb _); [done|].
  apply every_from_mono. intros x j c. apply Hfg.
Qed.

Lemma every_present_from_mono {A} (f g : A -> nat -> option bool) i a b :
  (forall x j c, f x j = Some c -> g x j = Some c) ->
  every_present_from f i a = Some b -> every_present_from g i a = Some b.
Proof.
  intros Hfg. revert i. induction a as [|[x|] a IH]; intros i; simpl;
    [done| |apply IH].
  destruct (f x i) as [[]|] eqn:Hf; [|intros [= <-]; by rewrite (Hfg _ _ _ Hf)|done].
  rewrite (Hfg _ _ _ Hf). apply IH.
Qed.

Lemma compareSlots_mono (f g : val -> val -> option bool) left right b :
  (forall x y c, f x y = Some c -> g x y = Some c) ->
  compareSlots f left right = Some b -> compareSlots g left right = Some b.
Proof.
  intros Hfg. unfold compareSlots, every_present. destruct (negb _); [done|].
  apply every_present_from_mono. intros x j c. apply Hfg.
Qed.

(** On arrays without holes the loop visits every position. *)
Lemma every_present_from_dense {A} (f : A -> nat -> option bool) i (a : list A) :
  every_present_from f i (Some <$> a) = every_from f i a.
Proof.
  revert i. induction a as [|x a IH]; intros i; simpl; [done|].
  destruct (f x i) as [[]|]; [apply IH|done|done].
Qed.

Lemma slot_index_dense (a : list val) i : slot_index (Some <$> a) i = js_index a i.
Proof.
  unfold slot_index, js_index. rewrite list_lookup_fmap. by destruct (a !! i).
Qed.

Lemma every_from_ext {A} (f g : A -> nat -> option bool) i a :
  (forall x j, f x j = g x j) -> every_from f i a = every_from g i a.
Proof.
  intros Hfg. revert i. induction a as [|x a IH]; intros i; simpl; [done|].
  rewrite Hfg. destruct (g x i) as [[]|]; [apply IH|done|done].
Qed.

Lemma compareSlots_dense (f : val -> val -> option bool) (left right : list val) :
  compareSlots f (Some <$> left) (Some <$> right) = compareArrays f left right.
Proof.
  unfold compareSlots, compareArrays, every_present, every.
  rewrite !length_fmap. destruct (negb _); [done|].
  rewrite every_present_from_dense. apply every_from_ext.
  intros x j. by rewrite slot_index_dense.
Qed.

(** A comparison that returns within some depth returns the same answer
    within any greater depth. *)
Lemma compareValues_mono h n m left right b :
  n <= m ->
  compareValues h n left right = Some b -> compareValues h m left right = Some b.
Proof.
  revert m left right b. induction n as [n IH] using lt_wf_ind.
  intros m left right b Hnm. destruct n as [|n]; [done|].
  destruct m as [|m]; [lia|]. cbn [compareValues].
  destruct (strict_equals left right); [done|].
  destruct (negb _); [done|].
  assert (Hrec : forall x y c,
            compareValues h n x y = Some c -> compareValues h m x y = Some c).
  { intros x y c. apply IH; lia. }
  assert (Hfresh : forall l r c,
            match n with
            | O => None
            | S n' => compareArrays (compareValues h n') l r
            end = Some c ->
            match m with
            | O => None
            | S m' => compareArrays (compareValues h m') l r
            end = Some c).
  { intros l r c. destruct n as [|n']; [done|]. destruct m as [|m']; [lia|].
    apply compareArrays_mono. intros x y c'. apply IH; lia. }
  destruct (as_array h left) as [ls|], (as_array h right) as [rs|];
    try (by apply compareSlots_mono).
  all: destruct (_ && _); [|done].
  all: destruct (_ || _); [done|].
  all: destruct (as_map (to_object h left)) as [lm|],
                (as_map (to_object h right)) as [rm|].
  all: destruct (negb _); [done|].
  all: match goal with
       | |- match ?s with _ => _ end = _ -> _ =>
         destruct s as [[]|] eqn:Hk;
           [apply Hfresh in Hk; rewrite Hk
           |apply Hfresh in Hk; rewrite Hk; done
           |done]
       end.
  all: apply every_from_mono; intros kv j c; apply Hrec.
Qed.

Lemma every_from_every2 (f : val -> val -> option bool) i left right :
  length left = length (drop i right) ->
  every_from (fun lv j => f lv (js_index right j)) i left
  = every2 f left (drop i right).
Proof.
  revert i. induction left as [|x left IH]; intros i Hlen.
  - by destruct (drop i right).
  - destruct (drop i right) as [|y rest] eqn:Hd; [done|].
    assert (Hi : right !! i = Some y).
    { rewrite <- (Nat.add_0_r i), <- lookup_drop. by rewrite Hd. }
    assert (Hrest : drop (S i) right = rest).
    { rewrite <- Nat.add_1_r, <- drop_drop, Hd. done. }
    simpl. unfold js_index at 1. rewrite Hi. simpl.
    destruct (f x y) as [[]|]; try done.
    rewrite IH; rewrite Hrest; [done|]. simpl in Hlen. lia.
Qed.

Lemma compareArrays_every2 (f : val -> val -> option bool) left right :
  compareArrays f left right
  = if negb (Nat.eqb (length left) (length right)) then Some false
    else every2 f left right.
Proof.
  unfold compareArrays, every.
  destruct (Nat.eqb (length left) (length right)) eqn:E; simpl; [|done].
  apply Nat.eqb_eq in E. by rewrite every_from_every2.
Qed.

Lemma every2_primitive (f : val -> val -> option bool) left right :
  (forall x y, x ∈ left -> f x y = Some (strict_equals x y)) ->
  every2 f left right
  = Some (forallb (fun p => strict_equals p.1 p.2) (zip left right)).
Proof.
  revert right. induction left as [|x left IH]; intros [|y right] Hf; try done.
  simpl. rewrite Hf by set_solver.
  destruct (strict_equals x y); [|done]. apply IH. intros; apply Hf. set_solver.
Qed.

Lemma forallb_zip_Str (a b : list string) :
  length a = length b ->
  forallb (fun p => strict_equals p.1 p.2) (zip (Str <$> a) (Str <$> b))
  = bool_decide (a = b).
Proof.
  revert b. induction a as [|x a IH]; intros [|y b] Hlen; try done.
  simpl in *. destruct (String.eqb x y) eqn:E; simpl.
  - apply String.eqb_eq in E as ->. rewrite IH by lia.
    apply bool_decide_ext. split; congruence.
  - apply String.eqb_neq in E. symmetry. apply bool_decide_eq_false. congruence.
Qed.

Section CompareSteps.
Variable h : heap.

(** Comparing two key arrays (lines 63): string lists are equal as lists. *)
Lemma compareFreshArrays_keys fuel (a b : list string) :
  compareFreshArrays h (S (S fuel)) (Str <$> a) (Str <$> b)
  = Some (bool_decide (a = b)).
Proof.
  unfold compareFreshArrays. rewrite compareArrays_every2.
  rewrite !length_fmap.
  destruct (Nat.eqb (length a) (length b)) eqn:E; simpl.
  - apply Nat.eqb_eq in E.
    rewrite (every2_primitive _ _ (Str <$> b)).
    + by rewrite forallb_zip_Str.
    + intros x y [s [-> _]]%list_elem_of_fmap. by apply compareValues_primitive.
  - symmetry. f_equal. apply bool_decide_eq_false. intros ->.
    by rewrite Nat.eqb_refl in E.
Qed.

(** Two distinct objects in the generic branch (lines 58-70). *)
Lemma compareValues_generic fuel l r :
  l <> r ->
  generic_pair (object_of h l) (object_of h r) = true ->
  compareValues h (S fuel) (Ref l) (Ref r)
  = let lo := object_of h l in
    let ro := object_of h r in
    if negb (Nat.eqb (length (object_keys lo)) (length (object_keys ro)))
    then Some false
    else
      match compareFreshArrays h fuel (Str <$> sort_keys (object_keys lo))
                                      (Str <$> sort_keys (object_keys ro)) with
      | Some true =>
        every (fun kv _ => compareValues h fuel kv.2 (get_prop ro kv.1))
              (object_entries lo)
      | Some false => Some false
      | None => None
      end.
Proof.
  intros Hlr Hg. cbn [compareValues]. cbn [strict_equals typeof as_array to_object is_null orb].
  apply Nat.eqb_neq in Hlr. rewrite Hlr.
  destruct (object_of h l) eqn:El, (object_of h r) eqn:Er; try done.
Qed.

(** One step of the comparison of two distinct list nodes: the keys agree, the
    [value]s are compared, and then the [previous] links. *)
Lemma ListNode_step fuel a b va pa vb pb :
  a <> b ->
  h !! a = Some (ListNodes.ListNode va pa) ->
  h !! b = Some (ListNodes.ListNode vb pb) ->
  compareValues h (S (S (S fuel))) (Ref a) (Ref b)
  = if strict_equals (num va) (num vb)
    then compareValues h (S (S fuel)) pa pb
    else Some false.
Proof.
  intros Hab Ha Hb.
  assert (Ea : object_of h a = ListNodes.ListNode va pa)
    by (unfold object_of; by rewrite Ha).
  assert (Eb : object_of h b = ListNodes.ListNode vb pb)
    by (unfold object_of; by rewrite Hb).
  rewrite compareValues_generic; rewrite ?Ea, ?Eb; try done.
  cbv zeta. unfold ListNodes.ListNode, object_keys, object_entries.
  cbn [fmap list_fmap fst length Nat.eqb negb].
  rewrite compareFreshArrays_keys, bool_decide_eq_true_2 by done.
  unfold every. cbn [every_from snd fst].
  replace (get_prop (PlainObj [("value", num vb); ("previous", pb)]) "value")
    with (num vb) by done.
  replace (get_prop (PlainObj [("value", num vb); ("previous", pb)]) "previous")
    with pb by done.
  rewrite compareValues_primitive by done.
  destruct (strict_equals (num va) (num vb)); [|done].
  by destruct (compareValues h (S (S fuel)) pa pb) as [[]|].
Qed.

End CompareSteps.

(** On the two circular lists [m] and [n] the comparison never comes back,
    whichever node it starts from. *)
Lemma circular_lists_no_result fuel :
  compareValues ListNodes.store fuel ListNodes.m1 ListNodes.n1 = None /\
  compareValues ListNodes.store fuel ListNodes.m2 ListNodes.n2 = None /\
  compareValues ListNodes.store fuel ListNodes.m3 ListNodes.n3 = None.
Proof.
  induction fuel as [|fuel (IH1 & IH2 & IH3)]; [done|].
  destruct fuel as [|[|fuel]]; [by vm_compute..|].
  unfold ListNodes.m1, ListNodes.m2, ListNodes.m3,
    ListNodes.n1, ListNodes.n2, ListNodes.n3 in *.
  split_and!.
  - rewrite (ListNode_step _ _ 1 4 1 (Ref 3) 1 (Ref 6)) by done. apply IH3.
  - rewrite (ListNode_step _ _ 2 5 2 (Ref 1) 2 (Ref 4)) by done. apply IH1.
  - rewrite (ListNode_step _ _ 3 6 3 (Ref 2) 3 (Ref 5)) by done. apply IH2.
Qed.

Lemma circular_lists_no_result_sym fuel :
  compareValues ListNodes.store fuel ListNodes.n1 ListNodes.m1 = None /\
  compareValues ListNodes.store fuel ListNodes.n2 ListNodes.m2 = None /\
  compareValues ListNodes.store fuel ListNodes.n3 ListNodes.m3 = None.
Proof.
  induction fuel as [|fuel (IH1 & IH2 & IH3)]; [done|].
  destruct fuel as [|[|fuel]]; [by vm_compute..|].
  unfold ListNodes.m1, ListNodes.m2, ListNodes.m3,
    ListNodes.n1, ListNodes.n2, ListNodes.n3 in *.
  split_and!.
  - rewrite (ListNode_step _ _ 4 1 1 (Ref 6) 1 (Ref 3)) by done. apply IH3.
  - rewrite (ListNode_step _ _ 5 2 2 (Ref 4) 2 (Ref 1)) by done. apply IH1.
  - rewrite (ListNode_step _ _ 6 3 3 (Ref 5) 3 (Ref 2)) by done. apply IH2.
Qed.

(** C1. On the test suite's own circular lists the comparator has no cycle
    bookkeeping: comparing the two distinct but structurally identical circular
    lists [m3] and [n3] never returns, whatever the stack depth, where the
    claim (and the test suite) expect [true].  The other cases do return: a
    circular list against itself is equal at once, against one with other
    values or against the non-circular [p3] it is unequal. *)
Theorem compareValues_circular_never_returns :
  (forall fuel,
     compareValues ListNodes.store fuel ListNodes.m3 ListNodes.n3 = None) /\
  (forall fuel,
     compareValues ListNodes.store fuel ListNodes.n3 ListNodes.m3 = None) /\
  compareValues ListNodes.store 1 ListNodes.m3 ListNodes.m3 = Some true /\
  compareValues ListNodes.store 3 ListNodes.n3 ListNodes.o3 = Some false /\
  compareValues ListNodes.store 5 ListNodes.n3 ListNodes.p3 = Some false /\
  compareValues ListNodes.store 5 ListNodes.p3 ListNodes.n3 = Some false.
Proof.
  split_and!.
  - intros fuel. apply circular_lists_no_result.
  - intros fuel. apply circular_lists_no_result_sym.
  - by vm_compute.
  - by vm_compute.
  - by vm_compute.
  - by vm_compute.
Qed.

Section CompareCategories.
Variable h : heap.

(** Two distinct objects of the generic branch without own enumerable keys
    are equal, whatever else they hold. *)
Lemma compareValues_keyless fuel l r :
  l <> r ->
  generic_pair (object_of h l) (object_of h r) = true ->
  object_entries (object_of h l) = [] ->
  object_entries (object_of h r) = [] ->
  compareValues h (S (S fuel)) (Ref l) (Ref r) = Some true.
Proof.
  intros Hlr Hg Hl Hr. rewrite compareValues_generic by done.
  cbv zeta. unfold object_keys. rewrite Hl, Hr. done.
Qed.

(** Two objects of the generic branch with different numbers of keys are
    unequal. *)
Lemma compareValues_key_count fuel l r :
  l <> r ->
  generic_pair (object_of h l) (object_of h r) = true ->
  length (object_keys (object_of h l)) <> length (object_keys (object_of h r)) ->
  compareValues h (S fuel) (Ref l) (Ref r) = Some false.
Proof.
  intros Hlr Hg Hlen. rewrite compareValues_generic by done.
  cbv zeta. apply Nat.eqb_neq in Hlen. by rewrite Hlen.
Qed.

(** An object of the generic branch against a [Map]: equal exactly when the
    object has no own enumerable key. *)
Lemma compareValues_with_map fuel o m lo entries :
  h !! o = Some lo -> h !! m = Some (MapObj entries) ->
  generic_pair lo (MapObj entries) = true ->
  compareValues h (S (S fuel)) (Ref o) (Ref m)
    = Some (bool_decide (object_entries lo = [])) /\
  compareValues h (S (S fuel)) (Ref m) (Ref o)
    = Some (bool_decide (object_entries lo = [])).
Proof.
  intros Ho Hm Hg.
  assert (Eo : object_of h o = lo) by (unfold object_of; by rewrite Ho).
  assert (Em : object_of h m = MapObj entries) by (unfold object_of; by rewrite Hm).
  assert (Hne : o <> m).
  { intros ->. rewrite Ho in Hm. injection Hm as ->. by destruct entries. }
  assert (Hg' : generic_pair (MapObj entries) lo = true) by by destruct lo.
  destruct (object_entries lo) as [|kv kvs] eqn:Hk.
  - rewrite bool_decide_eq_true_2 by done.
    split; apply compareValues_keyless; rewrite ?Eo, ?Em; done.
  - rewrite bool_decide_eq_false_2 by done.
    split; apply compareValues_key_count; rewrite ?Eo, ?Em; try done;
      unfold object_keys; rewrite Hk; done.
Qed.

End CompareCategories.

(** C3 as the claim states it fails on [NaN]: [NaN === NaN] is false, the
    [typeof]s agree, and no later case applies. *)
Lemma compareValues_NaN_NaN : compareValues ∅ 1 NaN NaN = Some false.
Proof. done. Qed.

(** C3, amended. [compareValues x x] is [true] for every value [x] other
    than [NaN], self-referential structures included: the identity shortcut
    answers before anything is traversed. *)
Theorem compareValues_reflexive (h : heap) (fuel : nat) (x : val) :
  x <> NaN -> compareValues h (S fuel) x x = Some true.
Proof. intros Hx. apply compareValues_identical. by apply strict_equals_refl. Qed.

Lemma compareValues_reflexive_witness :
  compareValues ListNodes.store 1 ListNodes.m3 ListNodes.m3 = Some true.
Proof. apply compareValues_reflexive. discriminate. Defined.

(** C5 as the claim states it fails: an empty array and a [Map] compare
    equal, since neither has an own enumerable key. *)
Lemma compareValues_emptyArray_map :
  compareValues Shapes.store 2 Shapes.emptyArray Shapes.mapA1 = Some true.
Proof. by vm_compute. Qed.

(** C5, amended. Values whose [typeof] differs are unequal. An array and a
    [Map], in either order, are unequal whenever the array has an element, and
    a [Map] and a plain object are unequal whenever the object has an own key;
    an empty array or an object without keys compares equal to every [Map]. *)
Theorem compareValues_categories (h : heap) (fuel : nat) :
  (forall left right,
     typeof h left <> typeof h right ->
     compareValues h (S fuel) left right = Some false) /\
  (forall a m es entries,
     h !! a = Some (ArrayObj es) -> h !! m = Some (MapObj entries) ->
     compareValues h (S (S fuel)) (Ref a) (Ref m) = Some (bool_decide (es = [])) /\
     compareValues h (S (S fuel)) (Ref m) (Ref a) = Some (bool_decide (es = []))) /\
  (forall p m props entries,
     h !! p = Some (PlainObj props) -> h !! m = Some (MapObj entries) ->
     compareValues h (S (S fuel)) (Ref p) (Ref m) = Some (bool_decide (props = [])) /\
     compareValues h (S (S fuel)) (Ref m) (Ref p) = Some (bool_decide (props = []))).
Proof.
  split_and!.
  - intros. by apply compareValues_typeof.
  - intros a m es entries Ha Hm.
    destruct (compareValues_with_map h fuel a m _ _ Ha Hm eq_refl) as [H1 H2].
    rewrite H1, H2.
    assert (bool_decide (object_entries (ArrayObj es) = []) = bool_decide (es = [])) as ->;
      [|done].
    apply bool_decide_ext. by destruct es.
  - intros p m props entries Hp Hm.
    by destruct (compareValues_with_map h fuel p m _ _ Hp Hm eq_refl) as [-> ->].
Qed.

Lemma compareValues_categories_witness :
  compareValues Shapes.store 1 Shapes.emptyArray Undefined = Some false /\
  compareValues Shapes.store 2 Shapes.emptyArray Shapes.mapA1 = Some true /\
  compareValues Shapes.store 2 Shapes.mapA1 Shapes.xy = Some false.
Proof.
  destruct (compareValues_categories Shapes.store 0) as (H1 & H2 & H3).
  split_and!.
  - apply H1. by vm_compute.
  - apply (H2 1 3 [] [(Str "a", num 1)]); reflexivity.
  - apply (H3 11 3 [("x", num 1); ("y", num 2)] [(Str "a", num 1)]); reflexivity.
Defined.

(** C6. Regular expressions and dates have no own enumerable property, so
    any two of them compare equal whatever their source, flags or instant:
    [/abc/] and [/abcd/] do, and so do two different dates, where the claim
    (and the test suite) expect [false].  Two distinct functions, even with
    the same text, are unequal. *)
Theorem compareValues_regexps_dates_functions (h : heap) (fuel : nat) (l r : loc) :
  l <> r ->
  (forall s1 f1 s2 f2,
     h !! l = Some (RegExpObj s1 f1) -> h !! r = Some (RegExpObj s2 f2) ->
     compareValues h (S (S fuel)) (Ref l) (Ref r) = Some true) /\
  (forall t1 t2,
     h !! l = Some (DateObj t1) -> h !! r = Some (DateObj t2) ->
     compareValues h (S (S fuel)) (Ref l) (Ref r) = Some true) /\
  (forall c1 c2,
     h !! l = Some (FunctionObj c1) -> h !! r = Some (FunctionObj c2) ->
     compareValues h (S fuel) (Ref l) (Ref r) = Some false).
Proof.
  intros Hlr. split_and!.
  - intros s1 f1 s2 f2 Hl Hr.
    apply compareValues_keyless; unfold object_of; rewrite ?Hl, ?Hr; done.
  - intros t1 t2 Hl Hr.
    apply compareValues_keyless; unfold object_of; rewrite ?Hl, ?Hr; done.
  - intros c1 c2 Hl Hr. cbn [compareValues strict_equals typeof as_array].
    apply Nat.eqb_neq in Hlr. rewrite Hlr.
    unfold object_of. by rewrite Hl, Hr.
Qed.

Lemma compareValues_regexps_dates_functions_witness :
  compareValues Shapes.store 2 Shapes.re_abc Shapes.re_abcd = Some true /\
  compareValues Shapes.store 2 Shapes.date1 Shapes.date2 = Some true /\
  compareValues Shapes.store 1 Shapes.negate1 Shapes.negate2 = Some false.
Proof.
  split_and!.
  - apply (proj1 (compareValues_regexps_dates_functions Shapes.store 0 5 6
                    ltac:(discriminate)) "abc" "" "abcd" ""); reflexivity.
  - eapply (proj1 (proj2 (compareValues_regexps_dates_functions Shapes.store 0 7 8
                    ltac:(discriminate)))); reflexivity.
  - eapply (proj2 (proj2 (compareValues_regexps_dates_functions Shapes.store 0 9 10
                    ltac:(discriminate)))); reflexivity.
Defined.

(** * The order of [sort] on keys *)

Lemma ascii_compare_refl a : Ascii.compare a a = Eq.
Proof. unfold Ascii.compare. apply N.compare_refl. Qed.

Lemma ascii_compare_lt_trans a b c :
  Ascii.compare a b = Lt -> Ascii.compare b c = Lt -> Ascii.compare a c = Lt.
Proof.
  unfold Ascii.compare. rewrite !N.compare_lt_iff. lia.
Qed.

Lemma string_compare_trans a b c :
  String.compare a b <> Gt -> String.compare b c <> Gt -> String.compare a c <> Gt.
Proof.
  revert b c. induction a as [|x a IH]; intros [|y b] [|z c]; simpl; try done.
  destruct (Ascii.compare x y) eqn:Exy; try done;
    destruct (Ascii.compare y z) eqn:Eyz; try done.
  - apply Ascii.compare_eq_iff in Exy as ->.
    apply Ascii.compare_eq_iff in Eyz as ->.
    rewrite ascii_compare_refl. apply IH.
  - apply Ascii.compare_eq_iff in Exy as ->. by rewrite Eyz.
  - apply Ascii.compare_eq_iff in Eyz as <-. by rewrite Exy.
  - by rewrite (ascii_compare_lt_trans _ _ _ Exy Eyz).
Qed.

#[local] Instance string_le_trans : Transitive string_le.
Proof.
  intros a b c. unfold string_le, String.leb. intros Hab Hbc.
  pose proof (string_compare_trans a b c) as Ht.
  destruct (String.compare a b); try done;
    destruct (String.compare b c); try done;
    destruct (String.compare a c); try done; by exfalso; apply Ht.
Qed.

#[local] Instance string_le_antisym : AntiSymm (=) string_le.
Proof. intros a b. apply String.leb_antisym. Qed.

#[local] Instance string_le_total : Total string_le.
Proof. intros a b. apply String.leb_total. Qed.

(** Once the sorted key lists of two objects are equal, every key of the left
    object is an own key of the right one: [right[leftKey]] reads an own
    enumerable property. *)
Lemma sort_keys_eq_elem (a b : list string) k :
  sort_keys a = sort_keys b -> k ∈ a -> k ∈ b.
Proof.
  unfold sort_keys. intros Hab Hk.
  rewrite <- (merge_sort_Permutation string_le b), <- Hab.
  by rewrite merge_sort_Permutation.
Qed.

(** Sorting does not depend on the order the keys came in. *)
Lemma sort_keys_Permutation (a b : list string) :
  a ≡ₚ b -> sort_keys a = sort_keys b.
Proof.
  intros Hab. unfold sort_keys.
  apply (Sorted_unique string_le); try apply Sorted_merge_sort; try apply _.
  by rewrite !merge_sort_Permutation.
Qed.

(** * Key order *)

Lemma find_key_NoDup (l : list (string * val)) k v :
  NoDup l.*1 -> (k, v) ∈ l ->
  List.find (fun kv => String.eqb kv.1 k) l = Some (k, v).
Proof.
  induction l as [|[k' v'] l IH]; simpl; intros Hnd Hin; [by apply elem_of_nil in Hin|].
  apply NoDup_cons in Hnd as [Hk' Hnd].
  apply elem_of_cons in Hin as [[= <- <-]|Hin].
  - by rewrite String.eqb_refl.
  - destruct (String.eqb k' k) eqn:E; [|by apply IH].
    apply String.eqb_eq in E as ->. exfalso. apply Hk'.
    apply list_elem_of_fmap. by exists (k, v).
Qed.

Lemma find_key_absent (l : list (string * val)) k :
  k ∉ l.*1 -> List.find (fun kv => String.eqb kv.1 k) l = None.
Proof.
  induction l as [|[k' v'] l IH]; simpl; intros Hk; [done|].
  apply not_elem_of_cons in Hk as [Hne Hk].
  destruct (String.eqb k' k) eqn:E; [|by apply IH].
  apply String.eqb_eq in E. congruence.
Qed.

(** Reading a property does not depend on the order of the properties. *)
Lemma get_prop_Permutation (props props' : list (string * val)) k :
  NoDup props.*1 -> props' ≡ₚ props ->
  get_prop (PlainObj props') k = get_prop (PlainObj props) k.
Proof.
  intros Hnd Hp. unfold get_prop. simpl.
  assert (Hnd' : NoDup props'.*1) by by rewrite Hp.
  destruct (decide (k ∈ props.*1)) as [Hin|Hout].
  - apply list_elem_of_fmap in Hin as ([k0 v] & -> & Hin). simpl.
    rewrite (find_key_NoDup props k0 v) by done.
    rewrite (find_key_NoDup props' k0 v); [done..|by rewrite Hp].
  - rewrite (find_key_absent props) by done.
    rewrite (find_key_absent props'); [done|by rewrite Hp].
Qed.

Lemma every_from_true {A} (g : A -> option bool) i a :
  every_from (fun x _ => g x) i a = Some true
  <-> Forall (fun x => g x = Some true) a.
Proof.
  revert i. induction a as [|x a IH]; intros i; simpl.
  - split; [constructor|done].
  - rewrite Forall_cons. destruct (g x) as [[]|].
    + rewrite IH. by split; [|intros [_ ?]].
    + by split; [|intros [? _]].
    + by split; [|intros [? _]].
Qed.

(** Equality of values is decidable. *)
Lemma spec_float_eq_dec (a b : spec_float) : {a = b} + {a <> b}.
Proof.
  decide equality; try apply Bool.bool_dec; try apply Pos.eq_dec; apply Z.eq_dec.
Qed.

Lemma val_eq_dec (x y : val) : {x = y} + {x <> y}.
Proof.
  decide equality;
    [apply Bool.bool_dec|apply spec_float_eq_dec|apply Z.eq_dec
    |apply String.string_dec|apply Nat.eq_dec|apply Nat.eq_dec].
Qed.

Section KeyOrder.
Variable h : heap.

(** Two distinct [Map]s (lines 46-56). *)
Lemma compareValues_maps fuel l r lm rm :
  l <> r ->
  h !! l = Some (MapObj lm) -> h !! r = Some (MapObj rm) ->
  compareValues h (S fuel) (Ref l) (Ref r)
  = if negb (Nat.eqb (length lm) (length rm)) then Some false
    else
      match compareFreshArrays h fuel lm.*1 rm.*1 with
      | Some true =>
        every (fun kv _ => compareValues h fuel kv.2 (map_get rm kv.1)) lm
      | Some false => Some false
      | None => None
      end.
Proof.
  intros Hlr Hl Hr. cbn [compareValues].
  cbn [strict_equals typeof as_array to_object is_null orb].
  apply Nat.eqb_neq in Hlr. rewrite Hlr.
  unfold object_of. rewrite Hl, Hr. done.
Qed.

Lemma strict_equals_same_value_zero x y :
  strict_equals x y = true -> same_value_zero x y = true.
Proof. intros H. unfold same_value_zero. by repeat case_match. Qed.

(** Two value lists of the same length that differ are found unequal, when
    different values of theirs do not compare equal. *)
Lemma every2_differ (f : val -> val -> option bool) (lk rk : list val) :
  length lk = length rk ->
  lk <> rk ->
  (forall x, x <> NaN -> f x x = Some true) ->
  f NaN NaN = Some false ->
  (forall x y, x ∈ lk -> y ∈ rk -> x <> y -> f x y = Some false) ->
  every2 f lk rk = Some false.
Proof.
  intros Hlen Hne Hrefl Hnan. revert rk Hlen Hne.
  induction lk as [|x lk IH]; intros [|y rk] Hlen Hne Hf; simpl in Hlen; try done.
  simpl. destruct (val_eq_dec x y) as [<-|Hxy].
  - destruct (val_eq_dec x NaN) as [->|Hx]; [by rewrite Hnan|].
    rewrite Hrefl by done. apply IH; [lia|congruence|].
    intros a b Ha Hb. apply Hf; by apply list_elem_of_further.
  - rewrite Hf; [done|apply list_elem_of_here..|done].
Qed.

(** Two [Map]s with the same pairs whose key sequences differ are unequal,
    when no two different keys compare equal to each other. *)
Lemma compareValues_maps_reordered fuel l r lm rm :
  h !! l = Some (MapObj lm) -> h !! r = Some (MapObj rm) ->
  rm ≡ₚ lm ->
  (forall x y, x ∈ lm.*1 -> y ∈ lm.*1 -> x <> y ->
               compareValues h (S fuel) x y = Some false) ->
  lm.*1 <> rm.*1 ->
  compareValues h (S (S (S fuel))) (Ref l) (Ref r) = Some false.
Proof.
  intros Hl Hr Hp Hkeys Hne.
  assert (Hlr : l <> r) by (intros ->; rewrite Hl in Hr; by injection Hr as ->).
  rewrite (compareValues_maps _ l r lm rm) by done.
  assert (Hlen : length lm = length rm) by by rewrite Hp.
  rewrite Hlen, Nat.eqb_refl. cbn [negb].
  unfold compareFreshArrays. rewrite compareArrays_every2, !length_fmap.
  rewrite Hlen, Nat.eqb_refl. cbn [negb].
  rewrite (every2_differ _ lm.*1 rm.*1); [done|by rewrite !length_fmap|done| | |].
  - intros x Hx. apply compareValues_identical. by apply strict_equals_refl.
  - by rewrite compareValues_primitive.
  - intros x y Hx Hy. apply Hkeys; [done|]. by rewrite <- Hp.
Qed.

(** The keys of a [Map] are pairwise different for [Map.prototype.get]; when
    they are primitive values, no two different keys compare equal, so that
    reordering them always shows. *)
Lemma compareValues_maps_primitive_keys_reordered fuel l r lm rm :
  h !! l = Some (MapObj lm) -> h !! r = Some (MapObj rm) ->
  rm ≡ₚ lm ->
  Forall (fun k => is_primitive k = true) lm.*1 ->
  (forall x y, x ∈ lm.*1 -> y ∈ lm.*1 -> same_value_zero x y = true -> x = y) ->
  lm.*1 <> rm.*1 ->
  compareValues h (S (S (S fuel))) (Ref l) (Ref r) = Some false.
Proof.
  intros Hl Hr Hp Hprim Hwf Hne. apply (compareValues_maps_reordered fuel l r lm rm);
    try done.
  intros x y Hx Hy Hxy.
  rewrite compareValues_primitive by by apply (proj1 (Forall_forall _ _) Hprim).
  destruct (strict_equals x y) eqn:E; [|done].
  exfalso. apply Hxy, Hwf; [done..|]. by apply strict_equals_same_value_zero.
Qed.

(** Reordering the properties of either plain object keeps an equal pair
    equal. *)
Lemma compareValues_records_reordered fuel l r l' r' lp rp lp' rp' :
  l <> r -> l' <> r' ->
  h !! l = Some (PlainObj lp) -> h !! r = Some (PlainObj rp) ->
  h !! l' = Some (PlainObj lp') -> h !! r' = Some (PlainObj rp') ->
  lp' ≡ₚ lp -> rp' ≡ₚ rp -> NoDup rp.*1 ->
  compareValues h fuel (Ref l) (Ref r) = Some true ->
  compareValues h fuel (Ref l') (Ref r') = Some true.
Proof.
  intros Hlr Hlr' Hl Hr Hl' Hr' Hpl Hpr Hnd.
  destruct fuel as [|fuel]; [done|].
  assert (El : object_of h l = PlainObj lp) by (unfold object_of; by rewrite Hl).
  assert (Er : object_of h r = PlainObj rp) by (unfold object_of; by rewrite Hr).
  assert (El' : object_of h l' = PlainObj lp') by (unfold object_of; by rewrite Hl').
  assert (Er' : object_of h r' = PlainObj rp') by (unfold object_of; by rewrite Hr').
  rewrite !compareValues_generic; rewrite ?El, ?Er, ?El', ?Er'; try done.
  cbv zeta. unfold object_keys, object_entries.
  rewrite (sort_keys_Permutation lp'.*1 lp.*1) by by rewrite Hpl.
  rewrite (sort_keys_Permutation rp'.*1 rp.*1) by by rewrite Hpr.
  rewrite !length_fmap.
  rewrite (Permutation_length Hpl), (Permutation_length Hpr).
  destruct (negb _); [done|].
  destruct (compareFreshArrays _ _ _ _) as [[]|]; try done.
  unfold every. rewrite !every_from_true, !Forall_forall.
  intros Hall kv Hkv. rewrite (get_prop_Permutation rp rp') by done.
  apply Hall. by rewrite <- Hpl.
Qed.

End KeyOrder.

(** C9 as the claim states it fails: two [Map]s with the same key/value
    pairs in a different order compare equal when the keys are themselves
    equal objects (here two distinct empty objects). *)
Lemma compareValues_maps_object_keys_reordered :
  compareValues Shapes.store 4 Shapes.mapK12 Shapes.mapK21 = Some true.
Proof. by vm_compute. Qed.

(** C9, amended. Key order matters for [Map]s and not for plain objects: two
    [Map]s holding the same key/value pairs in a different key order are
    unequal whenever no two different keys compare equal to each other;
    reordering the properties of either of two plain objects keeps an equal
    pair equal; and [{x: 1, y: 2}] equals [{y: 2, x: 1}]. *)
Theorem compareValues_key_order (h : heap) (fuel : nat) :
  (forall l r lm rm,
     h !! l = Some (MapObj lm) -> h !! r = Some (MapObj rm) ->
     rm ≡ₚ lm ->
     (forall x y, x ∈ lm.*1 -> y ∈ lm.*1 -> x <> y ->
                  compareValues h (S fuel) x y = Some false) ->
     lm.*1 <> rm.*1 ->
     compareValues h (S (S (S fuel))) (Ref l) (Ref r) = Some false) /\
  (forall l r l' r' lp rp lp' rp',
     l <> r -> l' <> r' ->
     h !! l = Some (PlainObj lp) -> h !! r = Some (PlainObj rp) ->
     h !! l' = Some (PlainObj lp') -> h !! r' = Some (PlainObj rp') ->
     lp' ≡ₚ lp -> rp' ≡ₚ rp -> NoDup rp.*1 ->
     compareValues h fuel (Ref l) (Ref r) = Some true ->
     compareValues h fuel (Ref l') (Ref r') = Some true) /\
  compareValues Shapes.store 3 Shapes.xy Shapes.yx = Some true.
Proof.
  split_and!.
  - apply compareValues_maps_reordered.
  - apply compareValues_records_reordered.
  - by vm_compute.
Qed.

Lemma compareValues_key_order_witness :
  compareValues KeyedMaps.store 5 KeyedMaps.map12 KeyedMaps.map21 = Some false /\
  compareValues Shapes.store 3 Shapes.mapXY Shapes.mapYX = Some false /\
  compareValues Shapes.store 3 Shapes.yx Shapes.xy = Some true.
Proof.
  destruct (compareValues_key_order KeyedMaps.store 2) as (H0 & _ & _).
  destruct (compareValues_key_order Shapes.store 0) as (H1 & _ & _).
  destruct (compareValues_key_order Shapes.store 3) as (_ & H2 & _).
  split_and!.
  - apply (H0 3 4 [(KeyedMaps.keyA1, Str "one"); (KeyedMaps.keyA2, Str "two")]
                  [(KeyedMaps.keyA2, Str "two"); (KeyedMaps.keyA1, Str "one")]).
    + reflexivity.
    + reflexivity.
    + apply Permutation_swap.
    + intros x y Hx Hy Hne. simpl in Hx, Hy.
      apply elem_of_cons in Hx as [->|Hx]; [|apply list_elem_of_singleton in Hx as ->];
        (apply elem_of_cons in Hy as [->|Hy]; [|apply list_elem_of_singleton in Hy as ->]);
        done || by vm_compute.
    + discriminate.
  - apply (H1 17 18 [(Str "x", num 1); (Str "y", num 2)]
                    [(Str "y", num 2); (Str "x", num 1)]).
    + reflexivity.
    + reflexivity.
    + apply Permutation_swap.
    + intros x y Hx Hy Hne. simpl in Hx, Hy.
      apply elem_of_cons in Hx as [->|Hx]; [|apply list_elem_of_singleton in Hx as ->];
        (apply elem_of_cons in Hy as [->|Hy]; [|apply list_elem_of_singleton in Hy as ->]);
        done || by vm_compute.
    + discriminate.
  - apply (H2 11 12 12 11 [("x", num 1); ("y", num 2)] [("y", num 2); ("x", num 1)]
                          [("y", num 2); ("x", num 1)] [("x", num 1); ("y", num 2)]).
    + discriminate.
    + discriminate.
    + reflexivity.
    + reflexivity.
    + reflexivity.
    + reflexivity.
    + apply Permutation_swap.
    + apply Permutation_swap.
    + apply NoDup_cons. split; [|apply NoDup_singleton].
      intros Hin. apply list_elem_of_singleton in Hin. discriminate.
    + by vm_compute.
Defined.

(** * Properties of the cache *)

Lemma findIndex_from_miss {A} (p : A -> outcome bool) i a :
  Forall (fun x => p x = Returned false) a ->
  findIndex_from p i a = Returned (-1)%Z.
Proof.
  intros Hall. revert i. induction Hall as [|x a Hx _ IH]; intros i; simpl; [done|].
  by rewrite Hx.
Qed.

Lemma findIndex_from_hit {A} (p : A -> outcome bool) i pre x post :
  Forall (fun y => p y = Returned false) pre ->
  p x = Returned true ->
  findIndex_from p i (pre ++ x :: post) = Returned (i + Z.of_nat (length pre))%Z.
Proof.
  intros Hall Hx. revert i.
  induction Hall as [|y pre Hy _ IH]; intros i; simpl.
  - rewrite Hx. f_equal. lia.
  - rewrite Hy, IH. f_equal. lia.
Qed.

(** The index found is [-1] exactly when every element was rejected, and
    otherwise points at the first accepted element. *)
Lemma findIndex_from_spec {A} (p : A -> outcome bool) i a j :
  (0 <= i)%Z ->
  findIndex_from p i a = Returned j ->
  (j = (-1)%Z /\ Forall (fun x => p x = Returned false) a) \/
  (exists pre x post,
     a = pre ++ x :: post /\ Forall (fun y => p y = Returned false) pre /\
     p x = Returned true /\ j = (i + Z.of_nat (length pre))%Z).
Proof.
  revert i. induction a as [|x a IH]; intros i Hi; simpl.
  - intros [= <-]. by left.
  - destruct (p x) as [[]|] eqn:Hx; [| |done].
    + intros [= <-]. right. exists [], x, a. split_and!; try done. simpl; lia.
    + intros Hj. apply IH in Hj; [|lia].
      destruct Hj as [[-> Hall]|(pre & y & post & -> & Hpre & Hy & ->)].
      * left. split; [done|]. by constructor.
      * right. exists (x :: pre), y, post. split_and!; try done.
        -- by constructor.
        -- simpl; lia.
Qed.

Section CacheFacts.
Context {T : Type}.
Variable h : heap.
Variable stack : nat.
Variable fn : list val -> outcome T.
Variable fn_length : nat.
Variable comparisonFn : option (list val -> list val -> outcome bool).

Let P := activePredicate h stack comparisonFn.
Let call := memoizedFn h stack fn comparisonFn.
Let clear := clearEntry (T:=T) h stack fn_length comparisonFn.

(** A hit returns the value of the first entry the predicate accepts, and
    leaves the state, invocation record included, as it was. *)
Lemma memoizedFn_hit (st : state) args pre e post :
  cache st = pre ++ e :: post ->
  Forall (fun e' => P (key e') args = Returned false) pre ->
  P (key e) args = Returned true ->
  call args st = (Returned (value e), st).
Proof.
  intros Hc Hpre He. unfold call, memoizedFn, findCacheIndex, findIndex.
  rewrite Hc, (findIndex_from_hit _ _ pre e post) by done.
  rewrite Z.add_0_l.
  replace (negb (Z.of_nat (length pre) =? -1)%Z) with true
    by (symmetry; apply negb_true_iff, Z.eqb_neq; lia).
  rewrite Nat2Z.id, list_lookup_middle by done. done.
Qed.

(** A miss invokes [fn] and puts the new entry at the front. *)
Lemma memoizedFn_miss (st : state) args v :
  Forall (fun e => P (key e) args = Returned false) (cache st) ->
  fn args = Returned v ->
  call args st
  = (Returned v,
     {| cache := {| key := args; value := v |} :: cache st;
        invoked := args :: invoked st |}).
Proof.
  intros Hall Hv. unfold call, memoizedFn, findCacheIndex, findIndex.
  rewrite findIndex_from_miss by done. simpl. by rewrite Hv.
Qed.

Lemma clearEntry_hit (st : state) args pre e post :
  0 < fn_length ->
  cache st = pre ++ e :: post ->
  Forall (fun e' => P (key e') args = Returned false) pre ->
  P (key e) args = Returned true ->
  clear args st
  = (Returned tt, {| cache := pre ++ post; invoked := invoked st |}).
Proof.
  intros Hlen Hc Hpre He. unfold clear, clearEntry, findCacheIndex, findIndex.
  apply Nat.ltb_lt in Hlen. rewrite Hlen.
  rewrite Hc, (findIndex_from_hit _ _ pre e post) by done.
  rewrite Z.add_0_l.
  replace (negb (Z.of_nat (length pre) =? -1)%Z) with true
    by (symmetry; apply negb_true_iff, Z.eqb_neq; lia).
  by rewrite Nat2Z.id, delete_middle.
Qed.

Lemma clearEntry_miss (st : state) args :
  0 < fn_length ->
  Forall (fun e => P (key e) args = Returned false) (cache st) ->
  clear args st = (Returned tt, st).
Proof.
  intros Hlen Hall. unfold clear, clearEntry, findCacheIndex, findIndex.
  apply Nat.ltb_lt in Hlen. rewrite Hlen.
  by rewrite findIndex_from_miss.
Qed.

End CacheFacts.

(** C2 as the claim states it fails: with the default comparator, after calls
    with two different [Map]s the cache holds an entry for each; the argument
    list [[{}]] is equivalent to the key of the older entry, yet the call
    returns the value stored in the newer one, which is equivalent too and
    comes first. *)
Lemma memoizedFn_returns_first_match :
  cache Shapes.two_maps_cached !! 1
    = Some {| key := [Shapes.mapA1]; value := Shapes.mapA1 |} /\
  activePredicate Shapes.store 4 None [Shapes.mapA1] [Shapes.emptyObject]
    = Returned true /\
  (memoizedFn Shapes.store 4 Shapes.first_arg None [Shapes.emptyObject]
              Shapes.two_maps_cached).1 <> Returned Shapes.mapA1.
Proof. split_and!; by vm_compute. Qed.

(** C2, amended. A call whose argument list is equivalent, under the active
    predicate, to the key of a cache entry returns the value stored in the
    first such entry and does not invoke [fn] (the state, with its record of
    invocations, is unchanged); a call that no entry is equivalent to invokes
    [fn] once with those arguments, inserts [{key: args, value: result}] at
    the front of the cache and returns [result]. *)
Theorem memoizedFn_hit_or_miss {T : Type} (h : heap) (stack : nat)
    (fn : list val -> outcome T)
    (comparisonFn : option (list val -> list val -> outcome bool))
    (st : state) (args : list val) :
  (forall pre e post,
     cache st = pre ++ e :: post ->
     Forall (fun e' => activePredicate h stack comparisonFn (key e') args
                       = Returned false) pre ->
     activePredicate h stack comparisonFn (key e) args = Returned true ->
     memoizedFn h stack fn comparisonFn args st = (Returned (value e), st)) /\
  (forall v,
     Forall (fun e => activePredicate h stack comparisonFn (key e) args
                      = Returned false) (cache st) ->
     fn args = Returned v ->
     memoizedFn h stack fn comparisonFn args st
     = (Returned v,
        {| cache := {| key := args; value := v |} :: cache st;
           invoked := args :: invoked st |})).
Proof.
  split.
  - intros pre e post. apply memoizedFn_hit.
  - intros v. apply memoizedFn_miss.
Qed.

Lemma memoizedFn_hit_or_miss_witness :
  memoizedFn Shapes.store 4 Shapes.first_arg None [Shapes.mapA1]
             Shapes.one_map_cached
  = (Returned Shapes.mapA1, Shapes.one_map_cached) /\
  memoizedFn Shapes.store 4 Shapes.first_arg None [Shapes.mapA2]
             Shapes.one_map_cached
  = (Returned Shapes.mapA2,
     {| cache := {| key := [Shapes.mapA2]; value := Shapes.mapA2 |}
                 :: cache Shapes.one_map_cached;
        invoked := [Shapes.mapA2] :: invoked Shapes.one_map_cached |}).
Proof.
  split.
  - apply (proj1 (memoizedFn_hit_or_miss Shapes.store 4 Shapes.first_arg None
                    Shapes.one_map_cached [Shapes.mapA1])
             [] {| key := [Shapes.mapA1]; value := Shapes.mapA1 |} []).
    + reflexivity.
    + constructor.
    + by vm_compute.
  - apply (proj2 (memoizedFn_hit_or_miss Shapes.store 4 Shapes.first_arg None
                    Shapes.one_map_cached [Shapes.mapA2])).
    + repeat constructor.
    + reflexivity.
Defined.

(** * The memoized function used from inside [fn] *)

(** For a wrapped function that does not use the memoized function, the two
    descriptions of a call agree. *)
Lemma memoizedFn_reentrant_pure {T : Type} (h : heap) (stack : nat)
    (fn : list val -> outcome T) (fn_length : nat)
    (comparisonFn : option (list val -> list val -> outcome bool))
    (depth : nat) (args : list val) (st : state) :
  memoizedFn_reentrant h stack (fun a => pure_prog (fn a)) fn_length comparisonFn
    (S depth) args st
  = memoizedFn h stack fn comparisonFn args st.
Proof.
  unfold memoizedFn. cbn [memoizedFn_reentrant].
  destruct (findCacheIndex _ _ _ _ _) as [index|]; [|done].
  destruct (negb _); [done|]. by destruct (fn args).
Qed.

Lemma run_reentrant_pure {T : Type} (h : heap) (stack : nat)
    (fn : list val -> outcome T) (fn_length : nat)
    (comparisonFn : option (list val -> list val -> outcome bool))
    (depth : nat) (ops : list operation) (st : state) :
  run_reentrant h stack (fun a => pure_prog (fn a)) fn_length comparisonFn
    (S depth) ops st
  = run h stack fn fn_length comparisonFn ops st.
Proof.
  revert st. induction ops as [|o ops IH]; intros st; [done|].
  unfold run_reentrant, run in *. cbn [foldl]. rewrite IH. f_equal.
  destruct o as [args|args|]; [|done..].
  cbn [step_reentrant step]. by rewrite memoizedFn_reentrant_pure.
Qed.

Section ReentrantFacts.
Context {T : Type}.
Variable h : heap.
Variable stack : nat.
Variable fn : list val -> prog T.
Variable fn_length : nat.
Variable comparisonFn : option (list val -> list val -> outcome bool).

Let memo := memoizedFn_reentrant h stack fn fn_length comparisonFn.

(** A miss runs [fn] and inserts afterwards, into the cache as [fn] left it. *)
Lemma memoizedFn_reentrant_miss depth args (st : state) :
  findCacheIndex h stack comparisonFn (cache st) args = Returned (-1)%Z ->
  memo (S depth) args st
  = match exec h stack fn_length comparisonFn (memo depth) (fn args)
                {| cache := cache st; invoked := args :: invoked st |} with
    | (Returned v, st1) =>
      (Returned v,
       {| cache := {| key := args; value := v |} :: cache st1;
          invoked := invoked st1 |})
    | (Thrown e, st1) => (Thrown e, st1)
    end.
Proof. intros Hidx. unfold memo. cbn [memoizedFn_reentrant]. by rewrite Hidx. Qed.

(** As long as [fn] only calls the memoized function, the cache only grows,
    at the front. *)
Lemma exec_grows depth :
  (forall a (st : state), exists added, cache (memo depth a st).2 = added ++ cache st) ->
  forall (p : prog T) (st : state),
    calls_only p ->
    exists added,
      cache (exec h stack fn_length comparisonFn (memo depth) p st).2
      = added ++ cache st.
Proof.
  intros Hself. induction p as [v|e|a k IH|a k IH|k IH]; intros st Hp; simpl in *.
  - by exists [].
  - by exists [].
  - destruct (Hself a st) as [a1 H1].
    destruct (IH (memo depth a st).1 (memo depth a st).2 (Hp _)) as [a2 H2].
    exists (a2 ++ a1). by rewrite H2, H1, app_assoc.
  - done.
  - done.
Qed.

Lemma memoizedFn_reentrant_grows depth :
  (forall a, calls_only (fn a)) ->
  forall a (st : state), exists added, cache (memo depth a st).2 = added ++ cache st.
Proof.
  intros Hfn. induction depth as [|depth IH]; intros a st.
  - by exists [].
  - unfold memo. cbn [memoizedFn_reentrant]. fold memo.
    destruct (findCacheIndex _ _ _ _ _) as [index|]; [|by exists []].
    destruct (negb _).
    + destruct (cache st !! Z.to_nat index); by exists [].
    + destruct (exec_grows depth IH (fn a)
                  {| cache := cache st; invoked := a :: invoked st |} (Hfn a))
        as [added Hadd].
      destruct (exec _ _ _ _ _ _ _) as [[v|e] st1]; simpl in *.
      * exists ({| key := a; value := v |} :: added). by rewrite Hadd.
      * by exists added.
Qed.

End ReentrantFacts.

(** C4 as the claim states it fails when [fn] uses the memoized function
    before it throws: [g(1)] calls [g(0)], which returns and is cached, and
    then throws; the exception reaches the caller, but the cache, empty
    before the call, now holds the entry for [[0]]. *)
Lemma memoizedFn_throw_after_nested_call :
  memoizedFn_reentrant Shapes.store 4 Recursive.g 1 None 5 [num 1] memoize
  = (Thrown (Raised (Str "failed")),
     {| cache := [{| key := [num 0]; value := num 0 |}];
        invoked := [[num 0]; [num 1]] |}) /\
  cache (memoizedFn_reentrant Shapes.store 4 Recursive.g 1 None 5 [num 1]
           memoize).2 <> cache (memoize (T:=val)).
Proof. split; by vm_compute. Qed.

(** C4, amended. When [fn] throws on a cache miss, the exception reaches
    the caller of the memoized function unchanged and the failed call adds
    no entry to the cache, which is left exactly as it was when [fn] threw.
    That is the cache of before the call whenever [fn] did not use the
    memoized function; when [fn] called it before throwing, the entries of
    those nested calls stay, in front of the entries of before the call. *)
Theorem memoizedFn_fn_throws {T : Type} (h : heap) (stack : nat)
    (fn : list val -> prog T) (fn_length : nat)
    (comparisonFn : option (list val -> list val -> outcome bool))
    (depth : nat) (st st1 : state) (args : list val) (e : exn) :
  findCacheIndex h stack comparisonFn (cache st) args = Returned (-1)%Z ->
  exec h stack fn_length comparisonFn
       (memoizedFn_reentrant h stack fn fn_length comparisonFn depth) (fn args)
       {| cache := cache st; invoked := args :: invoked st |} = (Thrown e, st1) ->
  memoizedFn_reentrant h stack fn fn_length comparisonFn (S depth) args st
    = (Thrown e, st1) /\
  (fn args = Throw e -> cache st1 = cache st) /\
  ((forall a, calls_only (fn a)) -> exists added, cache st1 = added ++ cache st).
Proof.
  intros Hidx Hexec. split_and!.
  - by rewrite memoizedFn_reentrant_miss, Hexec.
  - intros Hfn. rewrite Hfn in Hexec. simpl in Hexec. by injection Hexec as <-.
  - intros Hfn.
    destruct (exec_grows h stack fn fn_length comparisonFn depth
                (memoizedFn_reentrant_grows h stack fn fn_length comparisonFn
                   depth Hfn)
                (fn args) {| cache := cache st; invoked := args :: invoked st |}
                (Hfn args)) as [added Hadd].
    rewrite Hexec in Hadd. by exists added.
Qed.

Lemma memoizedFn_fn_throws_witness :
  (memoizedFn_reentrant Shapes.store 4 Recursive.g 1 None 5 [num 1] memoize
   = (Thrown (Raised (Str "failed")),
      {| cache := [{| key := [num 0]; value := num 0 |}];
         invoked := [[num 0]; [num 1]] |}) /\
   exists added,
     [{| key := [num 0]; value := num 0 |}] = added ++ cache (memoize (T:=val))) /\
  cache {| cache := cache Shapes.one_map_cached;
           invoked := [num 7] :: invoked Shapes.one_map_cached |}
  = cache Shapes.one_map_cached.
Proof.
  split.
  - destruct (memoizedFn_fn_throws Shapes.store 4 Recursive.g 1 None 4 memoize
                {| cache := [{| key := [num 0]; value := num 0 |}];
                   invoked := [[num 0]; [num 1]] |}
                [num 1] (Raised (Str "failed")))
      as (H1 & _ & H3); [reflexivity|by vm_compute|].
    split; [exact H1|]. apply H3. intros a. unfold Recursive.g.
    destruct (strict_equals _ _); [exact I|]. intros [v|e]; exact I.
  - apply (memoizedFn_fn_throws Shapes.store 4
             (fun a => pure_prog (Shapes.thrower a)) 1 None 0
             Shapes.one_map_cached _ [num 7] (Raised (num 7)));
      [by vm_compute|reflexivity|reflexivity].
Defined.

(** ** The at-most-one-match invariant *)

Lemma filter_delete_length {A} (f : A -> bool) i (l : list A) :
  length (List.filter f (delete i l)) <= length (List.filter f l).
Proof.
  revert i. induction l as [|x l IH]; intros [|i]; simpl; try done.
  - destruct (f x); simpl; lia.
  - specialize (IH i). destruct (f x); simpl; lia.
Qed.

Section Invariant.
Context {T : Type}.
Variable h : heap.
Variable stack : nat.
Variable fn : list val -> prog T.
Variable fn_length : nat.
Variable comparisonFn : option (list val -> list val -> outcome bool).

Let P := activePredicate h stack comparisonFn.
Let inv := at_most_one_match (T:=T) h stack comparisonFn.
Let memo := memoizedFn_reentrant h stack fn fn_length comparisonFn.
Let nested_clear := call_clear h stack fn fn_length comparisonFn.

(** The invariant during a call: at most one entry matches any argument
    list, and no entry matches the argument list of a call in progress. *)
Let inv_pending (pending : list (list val)) (c : list (CacheEntry T)) : Prop :=
  inv c /\
  Forall (fun p => Forall (fun e => matches h stack comparisonFn p e = false) c)
         pending.

Hypothesis P_equivalence : Equivalence (fun l r => P l r = Returned true).

Lemma matches_true args (e : CacheEntry T) :
  matches h stack comparisonFn args e = true <-> P (key e) args = Returned true.
Proof.
  unfold matches. fold P. destruct (P (key e) args) as [[]|]; split; done.
Qed.

Lemma inv_pending_nil pending : inv_pending pending [].
Proof.
  split; [intros a; simpl; lia|]. induction pending; by constructor.
Qed.

Lemma inv_pending_delete pending c i :
  inv_pending pending c -> inv_pending pending (delete i c).
Proof.
  intros [Hinv Hpend]. split.
  - intros a. etrans; [apply filter_delete_length|apply Hinv].
  - eapply Forall_impl; [exact Hpend|]. intros p Hp. by apply Forall_delete.
Qed.

Lemma inv_pending_pop pending args c :
  inv_pending (args :: pending) c -> inv_pending pending c.
Proof. intros [Hinv Hpend]. split; [done|]. by inversion Hpend. Qed.

(** A miss puts the argument list among the calls in progress. *)
Lemma inv_pending_push pending args c :
  Forall (fun e => P (key e) args = Returned false) c ->
  inv_pending pending c -> inv_pending (args :: pending) c.
Proof.
  intros Hmiss [Hinv Hpend]. split; [done|]. constructor; [|done].
  eapply Forall_impl; [exact Hmiss|]. intros e He. unfold matches. fold P.
  by rewrite He.
Qed.

(** Inserting the entry of a call that is in progress ends the call. *)
Lemma inv_pending_insert pending args v c :
  Forall (fun p => P p args <> Returned true) pending ->
  inv_pending (args :: pending) c ->
  inv_pending pending ({| key := args; value := v |} :: c).
Proof.
  destruct P_equivalence as [_ Hsym Htrans].
  intros Hclear [Hinv Hpend]. inversion Hpend as [|? ? Hargs Hpend']; subst.
  split.
  - intros args'. simpl.
    destruct (matches _ _ _ args' {| key := args; value := v |}) eqn:Hnew;
      [|apply Hinv].
    apply matches_true in Hnew. simpl in Hnew.
    assert (List.filter (matches h stack comparisonFn args') c = []) as ->; [|done].
    clear Hinv Hpend Hpend'.
    induction Hargs as [|e c He _ IH]; [done|]. simpl.
    destruct (matches _ _ _ args' e) eqn:Hold; [|done].
    exfalso. apply matches_true in Hold.
    assert (matches h stack comparisonFn args e = true) as Hc;
      [|by rewrite He in Hc].
    apply matches_true. eapply Htrans; [exact Hold|]. by apply Hsym.
  - clear Hpend. induction Hpend' as [|p pending Hp _ IH]; [done|].
    inversion Hclear as [|? ? Hpa Hclear']; subst.
    constructor; [|by apply IH].
    constructor; [|done].
    destruct (matches _ _ _ p {| key := args; value := v |}) eqn:Hnew; [|done].
    apply matches_true in Hnew. simpl in Hnew. by apply Hsym in Hnew.
Qed.

Lemma clearEntry_inv_pending pending args (st : state) :
  inv_pending pending (cache st) ->
  inv_pending pending
    (cache (clearEntry (T:=T) h stack fn_length comparisonFn args st).2).
Proof.
  intros HJ. unfold clearEntry. destruct (0 <? fn_length)%nat; [|done].
  destruct (findCacheIndex _ _ _ _ _) as [index|]; [|done].
  destruct (negb (index =? -1)%Z); [|done]. by apply inv_pending_delete.
Qed.

Lemma exec_inv_pending depth :
  (forall pending a (st : state),
     inv_pending pending (cache st) -> nested_clear depth pending a st ->
     inv_pending pending (cache (memo depth a st).2)) ->
  forall (p : prog T) pending (st : state),
    inv_pending pending (cache st) ->
    exec_clear h stack fn_length comparisonFn (nested_clear depth pending) (memo depth) p st ->
    inv_pending pending
      (cache (exec h stack fn_length comparisonFn (memo depth) p st).2).
Proof.
  intros Hself.
  induction p as [v|e|a k IH|a k IH|k IH]; intros pending st HJ Hp;
    cbn [exec exec_clear] in *.
  - done.
  - done.
  - destruct Hp as [Ha Hk]. apply IH; [|done]. by apply Hself.
  - apply IH; [|done]. by apply clearEntry_inv_pending.
  - apply IH; [|done]. apply inv_pending_nil.
Qed.

Lemma memoizedFn_reentrant_inv_pending depth :
  forall pending a (st : state),
    inv_pending pending (cache st) -> nested_clear depth pending a st ->
    inv_pending pending (cache (memo depth a st).2).
Proof.
  induction depth as [|depth IH]; intros pending a st HJ Hclear; [done|].
  unfold memo, nested_clear in Hclear |- *.
  cbn [memoizedFn_reentrant call_clear] in Hclear |- *.
  fold memo nested_clear in Hclear |- *.
  destruct (findCacheIndex _ _ _ _ _) as [index|] eqn:Hidx; [|done].
  destruct (negb (index =? -1)%Z) eqn:Hneg.
  - by destruct (cache st !! Z.to_nat index).
  - apply negb_false_iff, Z.eqb_eq in Hneg as ->.
    destruct (findIndex_from_spec _ 0%Z (cache st) (-1)%Z ltac:(lia) Hidx)
      as [[_ Hmiss]|(pre & ? & ? & _ & _ & _ & ?)]; [|lia].
    destruct Hclear as [Hpend Hfn].
    pose proof (exec_inv_pending depth IH (fn a) (a :: pending)
                  {| cache := cache st; invoked := a :: invoked st |}
                  (inv_pending_push pending a (cache st) Hmiss HJ) Hfn) as HJ1.
    destruct (exec _ _ _ _ _ _ _) as [[v|e] st1]; simpl in *.
    + by apply inv_pending_insert.
    + by eapply inv_pending_pop.
Qed.

Lemma step_reentrant_at_most_one_match depth (st : state) (o : operation) :
  inv (cache st) ->
  match o with Call args => nested_clear depth [] args st | _ => True end ->
  inv (cache (step_reentrant h stack fn fn_length comparisonFn depth st o)).
Proof.
  intros Hinv Hclear.
  assert (inv_pending [] (cache st)) as HJ by (split; [done|constructor]).
  destruct o as [args|args|]; simpl.
  - by apply (memoizedFn_reentrant_inv_pending depth [] args st).
  - by apply (clearEntry_inv_pending [] args st).
  - intros a. simpl. lia.
Qed.

Lemma run_reentrant_at_most_one_match depth (ops : list operation) (st : state) :
  inv (cache st) ->
  run_clear h stack fn fn_length comparisonFn depth ops st ->
  inv (cache (run_reentrant h stack fn fn_length comparisonFn depth ops st)).
Proof.
  revert st. induction ops as [|o ops IH]; intros st Hinv Hclear; [done|].
  destruct Hclear as [Ho Hops]. simpl. apply IH; [|done].
  by apply step_reentrant_at_most_one_match.
Qed.

End Invariant.

(** A wrapped function that does not use the memoized function makes no
    nested call at all. *)
Lemma run_clear_pure {T : Type} (h : heap) (stack : nat)
    (fn : list val -> prog T) (fn_length : nat)
    (comparisonFn : option (list val -> list val -> outcome bool)) :
  (forall a, exists r, fn a = pure_prog r) ->
  forall depth ops (st : state),
    run_clear h stack fn fn_length comparisonFn depth ops st.
Proof.
  intros Hfn depth ops. induction ops as [|o ops IH]; intros st; [done|].
  split; [|apply IH]. destruct o as [args| |]; try done.
  destruct depth as [|depth]; [done|]. cbn [call_clear].
  destruct (findCacheIndex _ _ _ _ _) as [index|]; [|done].
  destruct (negb _); [done|]. split; [constructor|].
  destruct (Hfn args) as [[v|e] ->]; done.
Qed.

(** C7, amended. When the active predicate is an equivalence relation and
    the wrapped function, while it runs, never calls the memoized function
    with an argument list equivalent to that of a call still in progress,
    every operation ([call], [clearEntry], [clearAll]) preserves the
    invariant that at most one cache entry matches any given argument list,
    and so the invariant holds after any sequence of operations on a
    memoized function.  The condition on the wrapped function holds whenever
    it does not use the memoized function. *)
Theorem cache_at_most_one_match {T : Type} (h : heap) (stack : nat)
    (fn : list val -> prog T) (fn_length : nat)
    (comparisonFn : option (list val -> list val -> outcome bool)) :
  Equivalence (fun l r => activePredicate h stack comparisonFn l r = Returned true) ->
  (forall depth (st : state) (o : operation),
     at_most_one_match h stack comparisonFn (cache st) ->
     run_clear h stack fn fn_length comparisonFn depth [o] st ->
     at_most_one_match h stack comparisonFn
       (cache (step_reentrant h stack fn fn_length comparisonFn depth st o))) /\
  (forall depth (ops : list operation),
     run_clear h stack fn fn_length comparisonFn depth ops memoize ->
     at_most_one_match h stack comparisonFn
       (cache (run_reentrant h stack fn fn_length comparisonFn depth ops memoize))) /\
  ((forall a, exists r, fn a = pure_prog r) ->
   forall depth (ops : list operation),
     at_most_one_match h stack comparisonFn
       (cache (run_reentrant h stack fn fn_length comparisonFn depth ops memoize))).
Proof.
  intros Heq.
  assert (at_most_one_match h stack comparisonFn (cache (memoize (T:=T)))) as H0
    by (intros a; simpl; lia).
  split_and!.
  - intros depth st o Hinv [Ho _].
    by apply step_reentrant_at_most_one_match.
  - intros depth ops Hclear. by apply run_reentrant_at_most_one_match.
  - intros Hfn depth ops. apply run_reentrant_at_most_one_match; [done..|].
    by apply run_clear_pure.
Qed.

Lemma same_typeof_equivalence :
  Equivalence (fun l r =>
    activePredicate Shapes.store 4 (Some Shapes.same_typeof) l r = Returned true).
Proof.
  unfold activePredicate, Shapes.same_typeof. split.
  - intros l. f_equal. by apply jstype_eqb_eq.
  - intros l r [= Hlr]. f_equal. apply jstype_eqb_eq. apply jstype_eqb_eq in Hlr. done.
  - intros l r s [= Hlr] [= Hrs]. f_equal.
    apply jstype_eqb_eq. apply jstype_eqb_eq in Hlr, Hrs. congruence.
Defined.

(** C7 as the claim states it fails when [fn] calls the memoized function
    with arguments equivalent to its own: under the predicate that compares
    the [typeof] of the first arguments, an equivalence relation, the call
    [f(5, 1)] misses, [fn] calls [f(5, 0)], which misses too and is cached,
    and then the outer call is cached as well: two entries match [[5]]. *)
Lemma nested_call_two_matches :
  Equivalence (fun l r =>
    activePredicate Shapes.store 4 (Some Shapes.same_typeof) l r = Returned true) /\
  cache (run_reentrant Shapes.store 4 Recursive.f 2 (Some Shapes.same_typeof) 5
           [Call [num 5; num 1]] memoize)
  = [ {| key := [num 5; num 1]; value := num 5 |};
      {| key := [num 5; num 0]; value := num 5 |} ] /\
  ~ at_most_one_match Shapes.store 4 (Some Shapes.same_typeof)
      (cache (run_reentrant Shapes.store 4 Recursive.f 2 (Some Shapes.same_typeof) 5
                [Call [num 5; num 1]] memoize)).
Proof.
  split_and!.
  - exact same_typeof_equivalence.
  - by vm_compute.
  - intros H. specialize (H [num 5]). vm_compute in H. lia.
Qed.

Lemma cache_at_most_one_match_witness :
  at_most_one_match Shapes.store 4 (Some Shapes.same_typeof)
    (cache (step_reentrant Shapes.store 4 Recursive.k 1 (Some Shapes.same_typeof) 5
              memoize (Call [num 1]))) /\
  at_most_one_match Shapes.store 4 (Some Shapes.same_typeof)
    (cache (run_reentrant Shapes.store 4 Recursive.k 1 (Some Shapes.same_typeof) 5
              [Call [num 1]; Call [Str "a"]; ClearEntry [num 3];
               Call [num 4]; ClearAll; Call [Null]]
              memoize)) /\
  at_most_one_match Shapes.store 4 (Some Shapes.same_typeof)
    (cache (run_reentrant Shapes.store 4 (fun a => pure_prog (Shapes.first_arg a))
              1 (Some Shapes.same_typeof) 5
              [Call [num 1]; Call [num 2]; Call [Str "a"]; ClearEntry [num 3];
               Call [num 4]; ClearAll; Call [Null]]
              memoize)).
Proof.
  destruct (cache_at_most_one_match Shapes.store 4 Recursive.k 1
              (Some Shapes.same_typeof) same_typeof_equivalence) as (H1 & H2 & _).
  split_and!.
  - apply H1; [intros a; simpl; lia|].
    cbn; repeat split; repeat constructor; discriminate.
  - apply H2.
    cbn; repeat split; repeat constructor; discriminate.
  - apply (proj2 (proj2 (cache_at_most_one_match Shapes.store 4
                           (fun a => pure_prog (Shapes.first_arg a)) 1
                           (Some Shapes.same_typeof) same_typeof_equivalence))).
    intros a. by eexists.
Defined.

(** ** Invalidation *)

(** C8 as the claim states it fails: in the cache holding an entry for each
    of two [Map]s, both entries are equivalent to [[{}]]; [clearEntry({})]
    removes the first one, and the next call with [{}] is answered from the
    other entry without invoking [fn] again. *)
Lemma clearEntry_leaves_other_match :
  activePredicate Shapes.store 4 None [Shapes.mapA2] [Shapes.emptyObject]
    = Returned true /\
  cache (run Shapes.store 4 Shapes.first_arg 1 None
           [ClearEntry [Shapes.emptyObject]] Shapes.two_maps_cached)
    = [{| key := [Shapes.mapA1]; value := Shapes.mapA1 |}] /\
  invoked (run Shapes.store 4 Shapes.first_arg 1 None
             [ClearEntry [Shapes.emptyObject]; Call [Shapes.emptyObject]]
             Shapes.two_maps_cached)
    = invoked Shapes.two_maps_cached.
Proof. split_and!; by vm_compute. Qed.

(** The same cache, the other way round: [clearEntry(mapA2)] removes the
    entry of [mapA2], no remaining entry is equivalent to [[mapA2]], and yet
    the call with [{}], which is equivalent to [[mapA2]], is answered from
    the entry of [mapA1]: what decides the next call is whether a remaining
    entry is equivalent to the argument list of that call. *)
Lemma clearEntry_equivalent_call_hits :
  activePredicate Shapes.store 4 None [Shapes.mapA2] [Shapes.emptyObject]
    = Returned true /\
  cache (run Shapes.store 4 Shapes.first_arg 1 None
           [ClearEntry [Shapes.mapA2]] Shapes.two_maps_cached)
    = [{| key := [Shapes.mapA1]; value := Shapes.mapA1 |}] /\
  activePredicate Shapes.store 4 None [Shapes.mapA1] [Shapes.mapA2]
    = Returned false /\
  memoizedFn Shapes.store 4 Shapes.first_arg None [Shapes.emptyObject]
    (run Shapes.store 4 Shapes.first_arg 1 None
       [ClearEntry [Shapes.mapA2]] Shapes.two_maps_cached)
    = (Returned Shapes.mapA1,
       run Shapes.store 4 Shapes.first_arg 1 None
         [ClearEntry [Shapes.mapA2]] Shapes.two_maps_cached).
Proof. split_and!; by vm_compute. Qed.

Lemma filter_elem_length {A} (f : A -> bool) (x : A) (l : list A) :
  x ∈ l -> f x = true -> 1 <= length (List.filter f l).
Proof.
  induction 1 as [x l|x y l _ IH]; intros Hx; simpl.
  - rewrite Hx. simpl. lia.
  - specialize (IH Hx). destruct (f y); simpl; lia.
Qed.

(** When the predicate is an equivalence relation and at most one entry
    matches any argument list, removing the entry that matches [args] leaves
    no entry that matches an argument list equivalent to [args]. *)
Lemma removed_entry_no_other_match {T : Type} (h : heap) (stack : nat)
    (comparisonFn : option (list val -> list val -> outcome bool))
    (pre post : list (CacheEntry T)) (e : CacheEntry T) (args args' : list val) :
  Equivalence (fun l r => activePredicate h stack comparisonFn l r = Returned true) ->
  at_most_one_match h stack comparisonFn (pre ++ e :: post) ->
  activePredicate h stack comparisonFn (key e) args = Returned true ->
  activePredicate h stack comparisonFn args args' = Returned true ->
  Forall (fun e' => exists b,
            activePredicate h stack comparisonFn (key e') args' = Returned b)
         (pre ++ post) ->
  Forall (fun e' => activePredicate h stack comparisonFn (key e') args'
                    = Returned false) (pre ++ post).
Proof.
  intros [_ Hsym Htrans] Hinv He Hargs Htotal.
  apply Forall_forall. intros e' Hin.
  destruct (proj1 (Forall_forall _ _) Htotal e' Hin) as [[|] Hb]; [|done].
  exfalso. specialize (Hinv args').
  assert (forall x : CacheEntry T,
            activePredicate h stack comparisonFn (key x) args' = Returned true ->
                    matches h stack comparisonFn args' x = true) as Hm
    by (intros x Hx; unfold matches; by rewrite Hx).
  assert (matches h stack comparisonFn args' e = true) as Hme
    by (apply Hm; by eapply Htrans).
  rewrite List.filter_app in Hinv. simpl in Hinv. rewrite Hme in Hinv.
  rewrite length_app in Hinv. simpl in Hinv.
  apply elem_of_app in Hin as [Hin|Hin];
    pose proof (filter_elem_length _ _ _ Hin (Hm _ Hb)); lia.
Qed.

(** C8, amended. [clearEntry(args)] performs the lookup of a call: when an
    entry equivalent to [args] is present it removes the first such entry and
    nothing else; a following call runs [fn] exactly once whenever no
    remaining entry is equivalent to the argument list of that call, which is
    so for every argument list equivalent to [args] when the predicate is an
    equivalence relation, its comparisons with the remaining entries return
    and no argument list was matched by two entries; [clearEntry] changes
    nothing when no entry matches. [clearAll()] empties the cache, after
    which every call runs [fn]. *)
Theorem clearEntry_clearAll_invalidate {T : Type} (h : heap) (stack : nat)
    (fn : list val -> prog T) (fn_length : nat)
    (comparisonFn : option (list val -> list val -> outcome bool))
    (st : state) (args : list val) :
  0 < fn_length ->
  (forall pre e post,
     cache st = pre ++ e :: post ->
     Forall (fun e' => activePredicate h stack comparisonFn (key e') args
                       = Returned false) pre ->
     activePredicate h stack comparisonFn (key e) args = Returned true ->
     clearEntry h stack fn_length comparisonFn args st
     = (Returned tt, {| cache := pre ++ post; invoked := invoked st |}) /\
     (forall depth args',
        Forall (fun e' => activePredicate h stack comparisonFn (key e') args'
                          = Returned false) (pre ++ post) ->
        memoizedFn_reentrant h stack fn fn_length comparisonFn (S depth) args'
          {| cache := pre ++ post; invoked := invoked st |}
        = match exec h stack fn_length comparisonFn
                  (memoizedFn_reentrant h stack fn fn_length comparisonFn depth)
                  (fn args')
                  {| cache := pre ++ post; invoked := args' :: invoked st |} with
          | (Returned v, st1) =>
            (Returned v,
             {| cache := {| key := args'; value := v |} :: cache st1;
                invoked := invoked st1 |})
          | (Thrown e, st1) => (Thrown e, st1)
          end) /\
     (Equivalence (fun l r =>
        activePredicate h stack comparisonFn l r = Returned true) ->
      at_most_one_match h stack comparisonFn (cache st) ->
      forall args',
        activePredicate h stack comparisonFn args args' = Returned true ->
        Forall (fun e' => exists b,
                  activePredicate h stack comparisonFn (key e') args' = Returned b)
               (pre ++ post) ->
        Forall (fun e' => activePredicate h stack comparisonFn (key e') args'
                          = Returned false) (pre ++ post))) /\
  (Forall (fun e => activePredicate h stack comparisonFn (key e) args
                    = Returned false) (cache st) ->
   clearEntry h stack fn_length comparisonFn args st = (Returned tt, st)) /\
  clearAll st = (Returned tt, {| cache := []; invoked := invoked st |}) /\
  (forall depth args',
     memoizedFn_reentrant h stack fn fn_length comparisonFn (S depth) args'
       (clearAll st).2
     = match exec h stack fn_length comparisonFn
               (memoizedFn_reentrant h stack fn fn_length comparisonFn depth)
               (fn args')
               {| cache := []; invoked := args' :: invoked st |} with
       | (Returned v, st1) =>
         (Returned v,
          {| cache := {| key := args'; value := v |} :: cache st1;
             invoked := invoked st1 |})
       | (Thrown e, st1) => (Thrown e, st1)
       end).
Proof.
  intros Hlen. split_and!.
  - intros pre e post Hc Hpre He. split_and!.
    + by eapply clearEntry_hit.
    + intros depth args' Hmiss.
      rewrite memoizedFn_reentrant_miss; [done|].
      unfold findCacheIndex, findIndex. by rewrite findIndex_from_miss.
    + intros Heq Hinv args' Hargs Htotal. rewrite Hc in Hinv.
      by eapply removed_entry_no_other_match.
  - by apply clearEntry_miss.
  - done.
  - intros depth args'. by rewrite memoizedFn_reentrant_miss.
Qed.

Lemma clearEntry_clearAll_invalidate_witness :
  (clearEntry Shapes.store 4 1 None [Shapes.mapA1] Shapes.two_maps_cached
   = (Returned tt,
      {| cache := [{| key := [Shapes.mapA2]; value := Shapes.mapA2 |}];
         invoked := invoked Shapes.two_maps_cached |}) /\
   memoizedFn_reentrant Shapes.store 4 (fun a => pure_prog (Shapes.first_arg a))
     1 None 1 [Shapes.mapA1]
     {| cache := [{| key := [Shapes.mapA2]; value := Shapes.mapA2 |}];
        invoked := invoked Shapes.two_maps_cached |}
   = (Returned Shapes.mapA1,
      {| cache := [{| key := [Shapes.mapA1]; value := Shapes.mapA1 |};
                   {| key := [Shapes.mapA2]; value := Shapes.mapA2 |}];
         invoked := [Shapes.mapA1] :: invoked Shapes.two_maps_cached |}) /\
   clearEntry Shapes.store 4 1 None [num 5] Shapes.two_maps_cached
   = (Returned tt, Shapes.two_maps_cached)) /\
  Forall (fun e' => activePredicate Shapes.store 4 (Some Shapes.same_typeof)
                      (key e') [num 3] = Returned false)
         ([] ++ [{| key := [Str "a"]; value := Str "a" |}]).
Proof.
  split.
  - destruct (clearEntry_clearAll_invalidate Shapes.store 4
                (fun a => pure_prog (Shapes.first_arg a)) 1
                None Shapes.two_maps_cached [Shapes.mapA1]) as (H1 & _ & _ & _);
      [repeat constructor|].
    destruct (H1 [{| key := [Shapes.mapA2]; value := Shapes.mapA2 |}]
                 {| key := [Shapes.mapA1]; value := Shapes.mapA1 |} [])
      as (Hclear & Hcall & _); [reflexivity|by repeat constructor|by vm_compute|].
    split_and!.
    + exact Hclear.
    + apply (Hcall 0 [Shapes.mapA1]). by repeat constructor.
    + apply (clearEntry_clearAll_invalidate Shapes.store 4
               (fun a => pure_prog (Shapes.first_arg a)) 1
               None Shapes.two_maps_cached [num 5]); [repeat constructor|].
      by repeat constructor.
  - destruct (clearEntry_clearAll_invalidate Shapes.store 4 Recursive.k 1
                (Some Shapes.same_typeof)
                {| cache := [{| key := [num 1]; value := num 1 |};
                             {| key := [Str "a"]; value := Str "a" |}];
                   invoked := [] |} [num 2]) as (H1 & _ & _ & _);
      [repeat constructor|].
    destruct (H1 [] {| key := [num 1]; value := num 1 |}
                 [{| key := [Str "a"]; value := Str "a" |}])
      as (_ & _ & Heq); [reflexivity|constructor|reflexivity|].
    apply Heq.
    + exact same_typeof_equivalence.
    + intros a. simpl.
      unfold matches, activePredicate, Shapes.same_typeof. simpl.
      destruct (typeof Shapes.store (js_index a 0)); simpl; lia.
    + reflexivity.
    + repeat constructor. by eexists.
Defined.

(** ** Arguments that are not equal to themselves *)

Lemma strict_equals_NaN_r y : strict_equals y NaN = false.
Proof. destruct y as [| | |f| | | |]; try done. by destruct f. Qed.

Lemma NaN_or_not (x : val) : x = NaN \/ x <> NaN.
Proof. destruct x as [| | |[]| | | |]; (by left) || (by right). Qed.

(** [NaN] is the only value the comparator finds unequal to itself. *)
Lemma compareValues_self_false h d x :
  compareValues h d x x = Some false -> x = NaN.
Proof.
  destruct d as [|d]; [done|]. intros Hx.
  destruct (NaN_or_not x) as [|Hne]; [done|].
  rewrite compareValues_identical in Hx; [done|]. by apply strict_equals_refl.
Qed.

Lemma compareValues_NaN_r h d y : compareValues h d y NaN <> Some true.
Proof.
  destruct d as [|d]; [done|].
  rewrite compareValues_primitive_r by done. by rewrite strict_equals_NaN_r.
Qed.

Lemma every2_NaN_r (f : val -> val -> option bool) l r :
  (forall y, f y NaN <> Some true) ->
  length l = length r -> NaN ∈ r ->
  every2 f l r <> Some true.
Proof.
  intros Hf. revert r. induction l as [|x l IH]; intros [|y r] Hlen Hin; try done.
  - by apply elem_of_nil in Hin.
  - simpl. apply elem_of_cons in Hin as [<-|Hin].
    + specialize (Hf x). by destruct (f x NaN) as [[]|].
    + destruct (f x y) as [[]|]; try done. apply IH; [|done]. simpl in Hlen. lia.
Qed.

Lemma every2_self_NaN h d l :
  NaN ∈ l -> every2 (compareValues h (S d)) l l = Some false.
Proof.
  induction l as [|x l IH]; intros Hin; [by apply elem_of_nil in Hin|].
  cbn [every2]. destruct (NaN_or_not x) as [->|Hne]; [done|].
  rewrite compareValues_identical by by apply strict_equals_refl.
  apply IH. apply elem_of_cons in Hin as [Hx|Hin]; [by subst|done].
Qed.

Section NaNArguments.
Context {T : Type}.
Variable h : heap.
Variable stack : nat.
Variable fn : list val -> outcome T.
Variable fn_length : nat.

Lemma compareValues_args_NaN key args :
  NaN ∈ args -> compareValues_args h stack key args <> Returned true.
Proof.
  intros Hin. unfold compareValues_args, compareFreshArrays.
  destruct stack as [|d]; [done|]. rewrite compareArrays_every2.
  destruct (Nat.eqb (length key) (length args)) eqn:E; simpl; [|done].
  apply Nat.eqb_eq in E.
  pose proof (every2_NaN_r (compareValues h d) key args
                (compareValues_NaN_r h d) E Hin) as Hne.
  by destruct (every2 _ _ _) as [[]|].
Qed.

Lemma compareValues_args_self_NaN args :
  2 <= stack -> NaN ∈ args -> compareValues_args h stack args args = Returned false.
Proof.
  intros Hs Hin. unfold compareValues_args, compareFreshArrays.
  destruct stack as [|[|d]]; [lia..|]. rewrite compareArrays_every2.
  by rewrite Nat.eqb_refl, every2_self_NaN.
Qed.

Lemma run_repeated_NaN_calls args v n (st : state) :
  2 <= stack -> NaN ∈ args -> fn args = Returned v ->
  findCacheIndex h stack None (cache st) args = Returned (-1)%Z ->
  run h stack fn fn_length None (replicate n (Call args)) st
  = {| cache := replicate n {| key := args; value := v |} ++ cache st;
       invoked := replicate n args ++ invoked st |}.
Proof.
  intros Hs Hin Hv. revert st. induction n as [|n IH]; intros st Hidx.
  - by destruct st.
  - apply findIndex_from_spec in Hidx as [[_ Hmiss]|(pre & ? & ? & _ & _ & _ & ?)];
      [|lia|done].
    change (run h stack fn fn_length None (replicate (S n) (Call args)) st)
      with (run h stack fn fn_length None (replicate n (Call args))
              (memoizedFn h stack fn None args st).2).
    rewrite (memoizedFn_miss h stack fn None st args v) by done.
    cbn [snd]. rewrite IH.
    + cbn [cache invoked].
      assert (Hr : forall {A} (x : A) k l, replicate k x ++ x :: l = x :: replicate k x ++ l).
      { intros A x k l. induction k as [|k IHk]; [done|]. simpl. by rewrite IHk. }
      by rewrite !Hr.
    + cbn [cache]. apply findIndex_from_miss. constructor; [|done].
      by apply compareValues_args_self_NaN.
Qed.

End NaNArguments.

(** C10. Let [x] be a value the default comparator finds unequal to itself
    ([NaN]). No cache entry is ever equivalent to an argument list containing
    [x]; so a memoized function called over and over with such a list, from
    a cache in which the lookup misses (the empty one, say), invokes [fn] on
    every call and inserts one more entry each time: after [n] calls the
    cache has gained [n] entries with the same key. *)
Theorem memoizedFn_NaN_never_hits {T : Type} (h : heap) (stack : nat)
    (fn : list val -> outcome T) (fn_length : nat)
    (d : nat) (x : val) (args : list val) :
  compareValues h d x x = Some false ->
  x ∈ args ->
  (forall key, activePredicate h stack None key args <> Returned true) /\
  (forall (st : state) (n : nat) (v : T),
     2 <= stack ->
     fn args = Returned v ->
     findCacheIndex h stack None (cache st) args = Returned (-1)%Z ->
     run h stack fn fn_length None (replicate n (Call args)) st
     = {| cache := replicate n {| key := args; value := v |} ++ cache st;
          invoked := replicate n args ++ invoked st |}).
Proof.
  intros Hx Hin. apply compareValues_self_false in Hx as ->. split.
  - intros key. by apply compareValues_args_NaN.
  - intros st n v Hs Hv Hidx. by apply run_repeated_NaN_calls.
Qed.

Lemma memoizedFn_NaN_never_hits_witness :
  run Shapes.store 4 Shapes.first_arg 1 None
      (replicate 3 (Call [NaN; num 1])) memoize
  = {| cache := replicate 3 {| key := [NaN; num 1]; value := NaN |};
       invoked := replicate 3 [NaN; num 1] |}.
Proof.
  rewrite <- (app_nil_r (replicate 3 {| key := [NaN; num 1]; value := NaN |})).
  rewrite <- (app_nil_r (replicate 3 [NaN; num 1])).
  apply (proj2 (memoizedFn_NaN_never_hits Shapes.store 4 Shapes.first_arg 1
                  1 NaN [NaN; num 1] eq_refl (list_elem_of_here _ _))
           memoize 3 NaN).
  - lia.
  - reflexivity.
  - reflexivity.
Defined.

(** * Further properties of the comparator *)

Lemma every2_true (f : val -> val -> option bool) l r :
  length l = length r ->
  every2 f l r = Some true <-> Forall2 (fun x y => f x y = Some true) l r.
Proof.
  revert r. induction l as [|x l IH]; intros [|y r] Hlen; simpl in Hlen; try lia.
  - split; [intros _; constructor|done].
  - simpl. rewrite Forall2_cons. destruct (f x y) as [[]|].
    + rewrite IH by lia. by split; [|intros [_ ?]].
    + by split; [|intros [? _]].
    + by split; [|intros [? _]].
Qed.

Section CompareShapes.
Variable h : heap.

(** Two distinct arrays (lines 36-40). *)
Lemma compareValues_arrays_step fuel a b slots1 slots2 :
  a <> b ->
  as_array h (Ref a) = Some slots1 -> as_array h (Ref b) = Some slots2 ->
  compareValues h (S fuel) (Ref a) (Ref b)
  = compareSlots (compareValues h fuel) slots1 slots2.
Proof.
  intros Hab Ha Hb. cbn [compareValues strict_equals].
  apply Nat.eqb_neq in Hab. rewrite Hab, Ha, Hb.
  assert (typeof h (Ref a) = TObject) as ->
    by (unfold as_array in Ha; unfold typeof; by destruct (object_of h a)).
  assert (typeof h (Ref b) = TObject) as ->
    by (unfold as_array in Hb; unfold typeof; by destruct (object_of h b)).
  done.
Qed.

End CompareShapes.

(** The loop over an array answers [true] exactly when the callback does at
    every position that is not a hole. *)
Lemma every_present_from_true {A} (f : A -> nat -> option bool) i a :
  every_present_from f i a = Some true
  <-> forall j x, a !! j = Some (Some x) -> f x (i + j) = Some true.
Proof.
  revert i. induction a as [|[x|] a IH]; intros i; simpl.
  - split; [by intros _ j x|done].
  - destruct (f x i) as [[]|] eqn:Hf.
    + rewrite IH. split.
      * intros Hall [|j] y Hy; simpl in Hy.
        -- injection Hy as <-. by rewrite Nat.add_0_r.
        -- rewrite <- Nat.add_succ_comm. by apply Hall.
      * intros Hall j y Hy. rewrite Nat.add_succ_comm. by apply Hall.
    + split; [done|]. intros Hall. specialize (Hall 0 x eq_refl).
      rewrite Nat.add_0_r in Hall. congruence.
    + split; [done|]. intros Hall. specialize (Hall 0 x eq_refl).
      rewrite Nat.add_0_r in Hall. congruence.
  - rewrite IH. split.
    + intros Hall [|j] y Hy; simpl in Hy; [done|].
      rewrite <- Nat.add_succ_comm. by apply Hall.
    + intros Hall j y Hy. rewrite Nat.add_succ_comm. by apply Hall.
Qed.

(** The loop of line 39 does not visit the holes of the left array: [[, 1]]
    is found equal to [[2, 1]], though not [[2, 1]] to [[, 1]], whose hole
    reads [undefined]; an element that is [undefined] is compared like any
    other. *)
Lemma compareValues_holes_skipped :
  compareValues Holes.store 2 Holes.hole1 Holes.two1 = Some true /\
  compareValues Holes.store 2 Holes.two1 Holes.hole1 = Some false /\
  compareValues Holes.store 2 Holes.undefined1 Holes.two1 = Some false /\
  compareValues Holes.store 2 Holes.undefined1 Holes.hole1 = Some true /\
  compareValues Holes.store 1 Holes.empty2 Holes.two1 = Some true.
Proof. split_and!; by vm_compute. Qed.

(** X1. Two distinct arrays are equal exactly when they have the same length
    and every element of the left array is equal to what the right array
    holds at the same position, [undefined] at a hole; the positions at
    which the left array has a hole are not compared.  For two arrays
    without holes this is equality position by position.  Arrays of
    different lengths are unequal without any element being compared. *)
Theorem compareValues_arrays (h : heap) (fuel : nat) (a b : loc)
    (slots1 slots2 : list (option val)) :
  a <> b ->
  as_array h (Ref a) = Some slots1 -> as_array h (Ref b) = Some slots2 ->
  (compareValues h (S fuel) (Ref a) (Ref b) = Some true
   <-> length slots1 = length slots2 /\
       forall i x, slots1 !! i = Some (Some x) ->
                   compareValues h fuel x (slot_index slots2 i) = Some true) /\
  (forall es1 es2,
     slots1 = Some <$> es1 -> slots2 = Some <$> es2 ->
     (compareValues h (S fuel) (Ref a) (Ref b) = Some true
      <-> Forall2 (fun x y => compareValues h fuel x y = Some true) es1 es2)) /\
  (length slots1 <> length slots2 ->
   compareValues h 1 (Ref a) (Ref b) = Some false).
Proof.
  intros Hab Ha Hb.
  rewrite (compareValues_arrays_step h fuel a b slots1 slots2) by done.
  rewrite (compareValues_arrays_step h 0 a b slots1 slots2) by done.
  split_and!.
  - unfold compareSlots, every_present.
    destruct (Nat.eqb (length slots1) (length slots2)) eqn:E; simpl.
    + apply Nat.eqb_eq in E. rewrite every_present_from_true.
      split; [by intros ?|by intros [_ ?]].
    + apply Nat.eqb_neq in E. split; [done|]. by intros [? _].
  - intros es1 es2 -> ->. rewrite compareSlots_dense, compareArrays_every2.
    destruct (Nat.eqb (length es1) (length es2)) eqn:E; simpl.
    + apply Nat.eqb_eq in E. by apply every2_true.
    + apply Nat.eqb_neq in E. split; [done|].
      intros HF. by apply Forall2_length in HF.
  - intros Hlen. apply Nat.eqb_neq in Hlen. unfold compareSlots. by rewrite Hlen.
Qed.

Lemma compareValues_arrays_witness :
  compareValues Holes.store 2 Holes.hole1 Holes.two1 = Some true /\
  compareValues Samples.store 2 Samples.arr123 Samples.arr123' = Some true /\
  compareValues Samples.store 1 Samples.arr123 Samples.arr12 = Some false.
Proof.
  split_and!.
  - apply (compareValues_arrays Holes.store 1 1 2
             [None; Some (num 1)] [Some (num 2); Some (num 1)]);
      [discriminate|reflexivity|reflexivity|].
    split; [reflexivity|].
    intros [|[|i]] x Hx; simpl in Hx; try discriminate.
    by injection Hx as <-.
  - apply (proj1 (proj2 (compareValues_arrays Samples.store 1 1 2
                           (Some <$> [num 10; num 20; num 30])
                           (Some <$> [num 10; num 20; num 30])
                           ltac:(discriminate) eq_refl eq_refl))
             [num 10; num 20; num 30] [num 10; num 20; num 30] eq_refl eq_refl).
    repeat constructor.
  - apply (compareValues_arrays Samples.store 0 1 6
             (Some <$> [num 10; num 20; num 30]) (Some <$> [num 10; num 20]));
      [discriminate|reflexivity|reflexivity|].
    simpl. lia.
Defined.

(** X2. As soon as one of the two values is a primitive, the answer is that
    of [===] and comes without recursion, whatever the store holds: [null]
    is unequal to every object, a number to every string. *)
Theorem compareValues_primitives (h : heap) (fuel : nat) (left right : val) :
  is_primitive left = true \/ is_primitive right = true ->
  compareValues h (S fuel) left right = Some (strict_equals left right).
Proof.
  intros [Hl|Hr]; [by apply compareValues_primitive|by apply compareValues_primitive_r].
Qed.

Lemma compareValues_primitives_witness :
  compareValues Samples.store 1 Null Samples.objX = Some false /\
  compareValues Samples.store 1 Samples.arr12 (Str "10,20") = Some false.
Proof.
  split.
  - apply (compareValues_primitives Samples.store 0 Null Samples.objX).
    left. reflexivity.
  - apply (compareValues_primitives Samples.store 0 Samples.arr12 (Str "10,20")).
    right. reflexivity.
Defined.

(** X3. Two distinct objects that are not both arrays, not both [Map]s and
    not functions are equal exactly when they have the same own keys, in any
    order, and every property of the left one equals what the right one holds
    under the same key; objects with different numbers of own keys are unequal
    without any value being compared. *)
Theorem compareValues_objects (h : heap) (fuel : nat) (l r : loc)
    (lo ro : object) :
  l <> r -> h !! l = Some lo -> h !! r = Some ro ->
  generic_pair lo ro = true ->
  (compareValues h (S (S (S fuel))) (Ref l) (Ref r) = Some true
   <-> object_keys lo ≡ₚ object_keys ro /\
       Forall (fun kv => compareValues h (S (S fuel)) kv.2 (get_prop ro kv.1)
                         = Some true) (object_entries lo)) /\
  (length (object_keys lo) <> length (object_keys ro) ->
   compareValues h 1 (Ref l) (Ref r) = Some false).
Proof.
  intros Hlr Hl Hr Hg.
  assert (El : object_of h l = lo) by (unfold object_of; by rewrite Hl).
  assert (Er : object_of h r = ro) by (unfold object_of; by rewrite Hr).
  split; [|intros Hlen; apply compareValues_key_count; rewrite ?El, ?Er; done].
  rewrite compareValues_generic; rewrite ?El, ?Er; try done. cbv zeta.
  destruct (Nat.eqb (length (object_keys lo)) (length (object_keys ro))) eqn:E;
    cbn [negb].
  - rewrite compareFreshArrays_keys.
    destruct (decide (sort_keys (object_keys lo) = sort_keys (object_keys ro)))
      as [Hs|Hs].
    + rewrite bool_decide_eq_true_2 by done. unfold every. rewrite every_from_true.
      split; [intros HF; split; [|done]|by intros [_ HF]].
      unfold sort_keys in Hs.
      rewrite <- (merge_sort_Permutation string_le (object_keys lo)), Hs.
      apply merge_sort_Permutation.
    + rewrite bool_decide_eq_false_2 by done. split; [done|].
      intros [Hp _]. exfalso. apply Hs. by apply sort_keys_Permutation.
  - apply Nat.eqb_neq in E. split; [done|].
    intros [Hp _]. exfalso. apply E. by rewrite Hp.
Qed.

Lemma compareValues_objects_witness :
  compareValues Shapes.store 3 Shapes.xy Shapes.yx = Some true /\
  compareValues Samples.store 1 Samples.objX Samples.objXY = Some false.
Proof.
  split.
  - apply (compareValues_objects Shapes.store 0 11 12
             (PlainObj [("x", num 1); ("y", num 2)])
             (PlainObj [("y", num 2); ("x", num 1)]));
      [discriminate|reflexivity|reflexivity|reflexivity|].
    split; [apply Permutation_swap|].
    repeat constructor.
  - apply (compareValues_objects Samples.store 0 7 8
             (PlainObj [("x", num 1)]) (PlainObj [("x", num 1); ("y", num 2)]));
      [discriminate|reflexivity|reflexivity|reflexivity|].
    simpl. lia.
Defined.

(** X4. Two distinct [Map]s are equal exactly when their keys are equal
    position by position and every value of the left one equals what
    [right.get] returns for the left key; [Map]s of different sizes are
    unequal without any key being compared. *)
Theorem compareValues_maps_equal (h : heap) (fuel : nat) (l r : loc)
    (lm rm : list (val * val)) :
  l <> r -> h !! l = Some (MapObj lm) -> h !! r = Some (MapObj rm) ->
  (compareValues h (S (S fuel)) (Ref l) (Ref r) = Some true
   <-> Forall2 (fun x y => compareValues h fuel x y = Some true) lm.*1 rm.*1 /\
       Forall (fun kv => compareValues h (S fuel) kv.2 (map_get rm kv.1)
                         = Some true) lm) /\
  (length lm <> length rm -> compareValues h 1 (Ref l) (Ref r) = Some false).
Proof.
  intros Hlr Hl Hr. rewrite !(compareValues_maps h _ l r lm rm) by done. split.
  - destruct (Nat.eqb (length lm) (length rm)) eqn:E; cbn [negb].
    + apply Nat.eqb_eq in E. unfold compareFreshArrays.
      rewrite compareArrays_every2, !length_fmap, E, Nat.eqb_refl. cbn [negb].
      pose proof (every2_true (compareValues h fuel) lm.*1 rm.*1) as Hk.
      rewrite !length_fmap in Hk. specialize (Hk E).
      destruct (every2 _ _ _) as [[]|] eqn:Hev.
      * unfold every. rewrite every_from_true.
        split; [intros HF; split; [by apply Hk|done]|by intros [_ HF]].
      * split; [done|]. intros [HF _]. by apply Hk in HF.
      * split; [done|]. intros [HF _]. by apply Hk in HF.
    + apply Nat.eqb_neq in E. split; [done|].
      intros [HF _]. apply Forall2_length in HF. by rewrite !length_fmap in HF.
  - intros Hlen. apply Nat.eqb_neq in Hlen. by rewrite Hlen.
Qed.

Lemma compareValues_maps_equal_witness :
  compareValues Samples.store 3 Samples.mapXY Samples.mapXY' = Some true /\
  compareValues Shapes.store 1 Shapes.mapA1 Shapes.mapXY = Some false.
Proof.
  split.
  - apply (compareValues_maps_equal Samples.store 1 4 5
             [(Str "x", num 1); (Str "y", num 2)]
             [(Str "x", num 1); (Str "y", num 2)]);
      [discriminate|reflexivity|reflexivity|].
    split; repeat constructor.
  - apply (compareValues_maps_equal Shapes.store 0 3 17
             [(Str "a", num 1)] [(Str "x", num 1); (Str "y", num 2)]);
      [discriminate|reflexivity|reflexivity|].
    simpl. lia.
Defined.

Lemma map_get_absent (entries : list (val * val)) k :
  (forall k', k' ∈ entries.*1 -> same_value_zero k' k = false) ->
  map_get entries k = Undefined.
Proof.
  intros Hk. unfold map_get.
  assert (List.find (fun kv => same_value_zero kv.1 k) entries = None) as ->; [|done].
  induction entries as [|[k' v'] entries IH]; [done|]. simpl.
  rewrite Hk by (simpl; apply list_elem_of_here). apply IH.
  intros k'' Hin. apply Hk. simpl. by apply list_elem_of_further.
Qed.

(** X5. The values of a [Map] are looked up by the identity of the key, not by
    comparing keys: when no key of the right [Map] is the same value as a key
    of the left one (two [Map]s keyed by separately built objects, say), the
    two can only be found equal if every value of the left [Map] is
    [undefined]. *)
Theorem compareValues_maps_foreign_keys (h : heap) (fuel : nat) (l r : loc)
    (lm rm : list (val * val)) :
  l <> r -> h !! l = Some (MapObj lm) -> h !! r = Some (MapObj rm) ->
  (forall k k', k ∈ lm.*1 -> k' ∈ rm.*1 -> same_value_zero k' k = false) ->
  compareValues h fuel (Ref l) (Ref r) = Some true ->
  Forall (fun kv => kv.2 = Undefined) lm.
Proof.
  intros Hlr Hl Hr Hforeign. destruct fuel as [|fuel]; [done|].
  rewrite (compareValues_maps h fuel l r lm rm) by done.
  destruct (negb _); [done|].
  destruct (compareFreshArrays _ _ _ _) as [[]|]; try done.
  unfold every. rewrite every_from_true, !Forall_forall.
  intros Hall [k v] Hkv. specialize (Hall _ Hkv). simpl in *.
  rewrite map_get_absent in Hall.
  - destruct fuel as [|fuel]; [done|].
    rewrite compareValues_primitive_r in Hall by done.
    injection Hall as Hv. by destruct v.
  - intros k' Hk'. apply (Hforeign k k'); [|done].
    apply list_elem_of_fmap. by exists (k, v).
Qed.

Lemma compareValues_maps_foreign_keys_witness :
  Forall (fun kv : val * val => kv.2 = Undefined) [(Ref 9, Undefined)].
Proof.
  apply (compareValues_maps_foreign_keys Samples.store 4 11 12
           [(Ref 9, Undefined)] [(Ref 10, num 5)]);
    [discriminate|reflexivity|reflexivity| |by vm_compute].
  intros k k' Hk Hk'. simpl in Hk, Hk'.
  apply list_elem_of_singleton in Hk as ->.
  apply list_elem_of_singleton in Hk' as ->. reflexivity.
Defined.

Lemma array_keys_NoDup (es : list val) :
  NoDup (imap (fun i v => (index_key i, v)) es).*1.
Proof.
  rewrite fmap_imap.
  rewrite (imap_ext _ (fun i _ => index_key i) es) by done.
  rewrite imap_seq_0. apply NoDup_fmap_2; [apply _|apply NoDup_seq].
Qed.

(** X6. An array and a plain object whose own keys are the indices of the
    array, holding the same values, are equal in either order (as long as no
    element is [NaN]): arrays and array-shaped objects are interchangeable. *)
Theorem compareValues_array_like (h : heap) (fuel : nat) (a p : loc)
    (es : list val) :
  h !! a = Some (ArrayObj es) ->
  h !! p = Some (PlainObj (imap (fun i v => (index_key i, v)) es)) ->
  NaN ∉ es ->
  compareValues h (S (S (S fuel))) (Ref a) (Ref p) = Some true /\
  compareValues h (S (S (S fuel))) (Ref p) (Ref a) = Some true.
Proof.
  intros Ha Hp Hnan.
  assert (Hap : a <> p) by (intros ->; by rewrite Ha in Hp).
  assert (Hvals : Forall (fun kv : string * val =>
            compareValues h (S (S fuel)) kv.2
              (get_prop (PlainObj (imap (fun i v => (index_key i, v)) es)) kv.1)
            = Some true) (imap (fun i v => (index_key i, v)) es)).
  { apply Forall_forall. intros [k v] Hkv. unfold get_prop.
    cbn [object_entries fst snd].
    rewrite (find_key_NoDup _ k v) by (done || apply array_keys_NoDup).
    apply compareValues_identical, strict_equals_refl. intros ->.
    apply Hnan. apply elem_of_lookup_imap in Hkv as (i & x & [= _ <-] & Hx).
    by apply list_elem_of_lookup_2 in Hx. }
  split.
  - apply (compareValues_objects h fuel a p _ _ Hap Ha Hp eq_refl). by split.
  - apply (compareValues_objects h fuel p a _ _ (not_eq_sym Hap) Hp Ha eq_refl).
    by split.
Qed.

Lemma compareValues_array_like_witness :
  compareValues Samples.store 3 Samples.arr123 Samples.obj123 = Some true /\
  compareValues Samples.store 3 Samples.obj123 Samples.arr123 = Some true.
Proof.
  apply (compareValues_array_like Samples.store 0 1 3 [num 10; num 20; num 30]);
    [reflexivity|reflexivity|].
  intros Hin. repeat (apply elem_of_cons in Hin as [Hin|Hin]; [discriminate|]).
  by apply elem_of_nil in Hin.
Defined.

(** * Symmetry *)

Lemma SFcompare_Eq_sym a b : SFcompare a b = Some Eq -> SFcompare b a = Some Eq.
Proof.
  destruct a as [s1|s1| |s1 m1 e1], b as [s2|s2| |s2 m2 e2]; simpl; try done;
    try (by destruct s1); try (by destruct s2); try (by destruct s1, s2).
  destruct s1, s2; try done.
  all: destruct (e1 ?= e2)%Z eqn:Ee; try done.
  all: apply Z.compare_eq in Ee as ->; rewrite Z.compare_refl.
  all: destruct (Pos.compare_cont Eq m1 m2) eqn:Em; try done.
  all: apply Pos.compare_eq in Em as ->.
  all: by rewrite Pos.compare_cont_refl.
Qed.

Lemma SFeqb_sym a b : SFeqb a b = SFeqb b a.
Proof.
  unfold SFeqb.
  destruct (SFcompare a b) as [[]|] eqn:Eab.
  - by rewrite (SFcompare_Eq_sym _ _ Eab).
  - destruct (SFcompare b a) as [[]|] eqn:Eba; try done.
    by rewrite (SFcompare_Eq_sym _ _ Eba) in Eab.
  - destruct (SFcompare b a) as [[]|] eqn:Eba; try done.
    by rewrite (SFcompare_Eq_sym _ _ Eba) in Eab.
  - destruct (SFcompare b a) as [[]|] eqn:Eba; try done.
    by rewrite (SFcompare_Eq_sym _ _ Eba) in Eab.
Qed.

Lemma strict_equals_sym a b : strict_equals a b = strict_equals b a.
Proof.
  destruct a, b; simpl; try done.
  - by destruct b, b0.
  - apply SFeqb_sym.
  - apply Z.eqb_sym.
  - apply String.eqb_sym.
  - apply Nat.eqb_sym.
  - apply Nat.eqb_sym.
Qed.

Lemma generic_pair_sym lo ro : generic_pair lo ro = generic_pair ro lo.
Proof. by destruct lo, ro. Qed.

Lemma get_prop_elem (o : object) k v :
  NoDup (object_keys o) -> (k, v) ∈ object_entries o -> get_prop o k = v.
Proof.
  intros Hnd Hin. unfold get_prop. by rewrite (find_key_NoDup _ k v).
Qed.

Lemma no_maps_object_of h l : no_maps h = true -> as_map (object_of h l) = None.
Proof.
  intros Hn. unfold object_of. destruct (h !! l) as [o|] eqn:Hl; [|done]. simpl.
  unfold no_maps in Hn. rewrite forallb_forall in Hn.
  specialize (Hn (l, o)). simpl in Hn.
  destruct (as_map o); [|done]. discriminate Hn.
  apply list_elem_of_In. by apply elem_of_map_to_list.
Qed.

Lemma unique_keys_object_of h l :
  unique_keys h = true -> NoDup (object_keys (object_of h l)).
Proof.
  intros Hu. unfold object_of. destruct (h !! l) as [o|] eqn:Hl; [|constructor].
  simpl. unfold unique_keys in Hu. rewrite forallb_forall in Hu.
  assert (Hin : In (l, o) (map_to_list h))
    by (apply list_elem_of_In; by apply elem_of_map_to_list).
  specialize (Hu (l, o) Hin). simpl in Hu. by apply bool_decide_eq_true in Hu.
Qed.

Section Symmetry.
Variable h : heap.

Lemma compareFreshArrays_keys_true fuel (a b : list string) :
  compareFreshArrays h fuel (Str <$> a) (Str <$> b) = Some true -> a = b.
Proof.
  destruct fuel as [|fuel]; [done|]. unfold compareFreshArrays.
  rewrite compareArrays_every2, !length_fmap.
  destruct (Nat.eqb (length a) (length b)) eqn:E; [|done]. cbn [negb].
  apply Nat.eqb_eq in E. revert b E.
  induction a as [|x a IH]; intros [|y b] E; try done. cbn [fmap list_fmap every2].
  destruct fuel as [|fuel]; [done|].
  rewrite compareValues_primitive by done. simpl.
  destruct (String.eqb x y) eqn:Exy; [|done].
  apply String.eqb_eq in Exy as ->. intros Hev. f_equal. apply IH; [|done].
  simpl in E. lia.
Qed.

Lemma compareArrays_sym (f : val -> val -> option bool) ls rs :
  (forall x y, f x y = Some true -> f y x = Some true) ->
  compareArrays f ls rs = Some true -> compareArrays f rs ls = Some true.
Proof.
  intros Hf. rewrite !compareArrays_every2, (Nat.eqb_sym (length rs)).
  destruct (Nat.eqb (length ls) (length rs)) eqn:E; [|done]. cbn [negb].
  apply Nat.eqb_eq in E. rewrite !every2_true by done.
  intros HF. apply Forall2_flip. eapply Forall2_impl; [exact HF|]. apply Hf.
Qed.

Hypothesis Hno_maps : no_maps h = true.
Hypothesis Hunique : unique_keys h = true.
Hypothesis Hno_holes : no_holes h = true.

Lemma no_holes_object_of l slots :
  object_of h l = SparseArrayObj slots -> exists es, slots = Some <$> es.
Proof.
  unfold object_of. destruct (h !! l) as [o|] eqn:Hl; [|done]. simpl. intros ->.
  unfold no_holes in Hno_holes. rewrite forallb_forall in Hno_holes.
  assert (Hin : In (l, SparseArrayObj slots) (map_to_list h))
    by (apply list_elem_of_In; by apply elem_of_map_to_list).
  specialize (Hno_holes _ Hin). simpl in Hno_holes. clear Hin Hl.
  induction slots as [|[x|] slots IH]; simpl in Hno_holes.
  - by exists [].
  - destruct (IH Hno_holes) as [es ->]. by exists (x :: es).
  - done.
Qed.

Lemma compareValues_sym_true fuel left right :
  compareValues h fuel left right = Some true ->
  compareValues h fuel right left = Some true.
Proof.
  revert left right. induction fuel as [|fuel IH]; intros left right; [done|].
  destruct (strict_equals left right) eqn:Hse.
  { intros _. apply compareValues_identical. by rewrite strict_equals_sym. }
  destruct (is_primitive left) eqn:Hpl.
  { rewrite compareValues_primitive by done. congruence. }
  destruct (is_primitive right) eqn:Hpr.
  { rewrite compareValues_primitive_r by done. congruence. }
  destruct left as [| | | | | | |l]; try done.
  destruct right as [| | | | | | |r]; try done.
  assert (Hlr : l <> r) by (simpl in Hse; by apply Nat.eqb_neq).
  destruct (generic_pair (object_of h l) (object_of h r)) eqn:Hg.
  - assert (Hg' : generic_pair (object_of h r) (object_of h l) = true)
      by by rewrite generic_pair_sym.
    rewrite !compareValues_generic by (done || by apply not_eq_sym).
    cbv zeta. rewrite (Nat.eqb_sym (length (object_keys (object_of h r)))).
    destruct (negb _); [done|].
    destruct (compareFreshArrays _ _ _ _) as [[]|] eqn:Hk; try done.
    apply compareFreshArrays_keys_true in Hk as Hs.
    rewrite <- Hs in Hk |- *. rewrite Hk. unfold every. rewrite !every_from_true, !Forall_forall.
    intros Hall [k w] Hkw. simpl.
    assert (Hin : k ∈ object_keys (object_of h l)).
    { apply (sort_keys_eq_elem (object_keys (object_of h r))); [done|].
      apply list_elem_of_fmap. by exists (k, w). }
    apply list_elem_of_fmap in Hin as ([k' v] & -> & Hkv). simpl in *.
    rewrite (get_prop_elem _ k' v) by (done || by apply unique_keys_object_of).
    apply IH. specialize (Hall _ Hkv). simpl in Hall.
    by rewrite (get_prop_elem _ k' w) in Hall
      by (done || by apply unique_keys_object_of).
  - pose proof (no_maps_object_of h l Hno_maps) as Hml.
    cbn [compareValues strict_equals typeof as_array to_object is_null orb].
    rewrite (Nat.eqb_sym r l). simpl in Hse. rewrite Hse.
    destruct (object_of h l) eqn:El, (object_of h r) eqn:Er.
    all: try discriminate Hg.
    all: try discriminate Hml.
    all: cbn [jstype_eqb negb andb as_map].
    all: try (intros Hfalse; discriminate Hfalse).
    all: repeat match goal with
                | H : object_of h _ = SparseArrayObj _ |- _ =>
                  destruct (no_holes_object_of _ _ H) as [? ->]; clear H
                end.
    all: rewrite !compareSlots_dense; apply compareArrays_sym, IH.
Qed.

End Symmetry.

(** X7. In a store without [Map]s and without arrays that have holes, the
    comparator is symmetric in its positive answers:
    [compareValues(left, right)] is [true] exactly when
    [compareValues(right, left)] is, at the same stack depth.  (With a hole
    it is not: [[, 1]] is equal to [[2, 1]] and [[2, 1]] is not equal to
    [[, 1]].) *)
Theorem compareValues_symmetric (h : heap) (fuel : nat) (left right : val) :
  no_maps h = true -> unique_keys h = true -> no_holes h = true ->
  compareValues h fuel left right = Some true
  <-> compareValues h fuel right left = Some true.
Proof. intros Hn Hu Hh. split; by apply compareValues_sym_true. Qed.

Lemma compareValues_symmetric_witness :
  compareValues Samples.plain_store 5 Samples.nested2 Samples.nested1 = Some true.
Proof.
  refine (proj1 (compareValues_symmetric Samples.plain_store 5 Samples.nested1
                   Samples.nested2 _ _ _) _); by vm_compute.
Defined.

(** * The distributed build *)

Lemma compareArrays_ext (f g : val -> val -> option bool) ls rs :
  (forall x y, f x y = g x y) -> compareArrays f ls rs = compareArrays g ls rs.
Proof.
  intros Hfg. unfold compareArrays, every. destruct (negb _); [done|].
  apply every_from_ext. intros x j. apply Hfg.
Qed.

Lemma every_present_from_ext {A} (f g : A -> nat -> option bool) i a :
  (forall x j, f x j = g x j) ->
  every_present_from f i a = every_present_from g i a.
Proof.
  intros Hfg. revert i. induction a as [|[x|] a IH]; intros i; simpl;
    [done| |apply IH].
  rewrite Hfg. destruct (g x i) as [[]|]; [apply IH|done|done].
Qed.

Lemma compareSlots_ext (f g : val -> val -> option bool) ls rs :
  (forall x y, f x y = g x y) -> compareSlots f ls rs = compareSlots g ls rs.
Proof.
  intros Hfg. unfold compareSlots, every_present. destruct (negb _); [done|].
  apply every_present_from_ext. intros x j. apply Hfg.
Qed.

Lemma no_maps_to_object h v : no_maps h = true -> as_map (to_object h v) = None.
Proof. intros Hn. destruct v; try done. by apply no_maps_object_of. Qed.

(** X8. On a store without [Map]s the comparator shipped in
    [dist/memoize.js] and the one of [src/memoize.ts] give the same answer, at
    every stack depth. *)
Theorem compareValues_dist_agrees (h : heap) (fuel : nat) (left right : val) :
  no_maps h = true ->
  compareValues_dist h fuel left right = compareValues h fuel left right.
Proof.
  intros Hn. revert left right. induction fuel as [fuel IH] using lt_wf_ind.
  intros left right. destruct fuel as [|fuel]; [done|].
  cbn [compareValues compareValues_dist].
  destruct (strict_equals left right); [done|].
  destruct (negb _); [done|].
  rewrite (no_maps_to_object h left Hn).
  assert (Hfresh : forall l r,
            match fuel with
            | O => None
            | S n => compareArrays (compareValues_dist h n) l r
            end
            = match fuel with
              | O => None
              | S n => compareArrays (compareValues h n) l r
              end).
  { intros l r. destruct fuel as [|n]; [done|].
    apply compareArrays_ext. intros x y. apply IH. lia. }
  destruct (as_array h left) as [ls|], (as_array h right) as [rs|].
  - apply compareSlots_ext. intros x y. apply IH. lia.
  - destruct (_ && _); [|done]. destruct (_ || _); [done|].
    destruct (negb _); [done|]. rewrite Hfresh.
    destruct (match fuel with O => None | S _ => _ end) as [[]|]; try done.
    apply every_from_ext. intros kv j. apply IH. lia.
  - destruct (_ && _); [|done]. destruct (_ || _); [done|].
    destruct (negb _); [done|]. rewrite Hfresh.
    destruct (match fuel with O => None | S _ => _ end) as [[]|]; try done.
    apply every_from_ext. intros kv j. apply IH. lia.
  - destruct (_ && _); [|done]. destruct (_ || _); [done|].
    destruct (negb _); [done|]. rewrite Hfresh.
    destruct (match fuel with O => None | S _ => _ end) as [[]|]; try done.
    apply every_from_ext. intros kv j. apply IH. lia.
Qed.

Lemma compareValues_dist_agrees_witness :
  compareValues_dist Samples.plain_store 5 Samples.nested1 Samples.nested2
  = compareValues Samples.plain_store 5 Samples.nested1 Samples.nested2.
Proof.
  refine (compareValues_dist_agrees Samples.plain_store 5 Samples.nested1
            Samples.nested2 _). by vm_compute.
Defined.

(** X9. The comparator shipped in [dist/memoize.js] has no case for [Map]s:
    any two distinct [Map]s are equal for it, whatever their sizes, keys and
    values, since a [Map] has no own enumerable property. *)
Theorem compareValues_dist_maps (h : heap) (fuel : nat) (l r : loc)
    (lm rm : list (val * val)) :
  l <> r -> h !! l = Some (MapObj lm) -> h !! r = Some (MapObj rm) ->
  compareValues_dist h (S (S fuel)) (Ref l) (Ref r) = Some true.
Proof.
  intros Hlr Hl Hr.
  cbn [compareValues_dist strict_equals typeof as_array to_object is_null orb].
  apply Nat.eqb_neq in Hlr. rewrite Hlr.
  unfold object_of. rewrite Hl, Hr. reflexivity.
Qed.

Lemma compareValues_dist_maps_witness :
  compareValues_dist Shapes.store 2 Shapes.mapA1 Shapes.mapXY = Some true.
Proof.
  apply (compareValues_dist_maps Shapes.store 0 3 17
           [(Str "a", num 1)] [(Str "x", num 1); (Str "y", num 2)]);
    [discriminate|reflexivity|reflexivity].
Defined.

(** * Further properties of the cache *)

Section CacheMore.
Context {T : Type}.
Variable h : heap.
Variable stack : nat.
Variable fn : list val -> outcome T.
Variable fn_length : nat.
Variable comparisonFn : option (list val -> list val -> outcome bool).

Let P := activePredicate h stack comparisonFn.

(** What the lookup returns: [-1] after every entry was rejected, or the
    position of the first accepted entry. *)
Lemma findCacheIndex_spec (c : list (CacheEntry T)) args index :
  findCacheIndex h stack comparisonFn c args = Returned index ->
  (index = (-1)%Z /\ Forall (fun e => P (key e) args = Returned false) c) \/
  (exists pre e post,
     c = pre ++ e :: post /\
     Forall (fun e' => P (key e') args = Returned false) pre /\
     P (key e) args = Returned true /\ index = Z.of_nat (length pre)).
Proof.
  intros Hidx.
  destruct (findIndex_from_spec _ 0%Z c index ltac:(lia) Hidx)
    as [?|(pre & e & post & ? & ? & ? & ->)]; [by left|].
  right. exists pre, e, post. split_and!; done || lia.
Qed.

Lemma sound_step (st : state) (o : operation) :
  sound fn st -> sound fn (step h stack fn fn_length comparisonFn st o).
Proof.
  intros [Hall Hlen]. destruct o as [args|args|]; simpl.
  - unfold memoizedFn.
    destruct (findCacheIndex _ _ _ _ _) as [index|]; [|done].
    destruct (negb _).
    + by destruct (cache st !! Z.to_nat index).
    + destruct (fn args) as [v|e] eqn:Hv; simpl; split; simpl; try lia.
      * constructor; [split; [done|apply list_elem_of_here]|].
        eapply Forall_impl; [exact Hall|]. intros e [? ?].
        split; [done|by apply list_elem_of_further].
      * eapply Forall_impl; [exact Hall|]. intros e' [? ?].
        split; [done|by apply list_elem_of_further].
  - unfold clearEntry. destruct (0 <? fn_length)%nat; [|done].
    destruct (findCacheIndex _ _ _ _ _) as [index|]; [|done].
    destruct (negb _); [|done]. simpl. split; simpl.
    + by apply Forall_delete.
    + etrans; [|exact Hlen]. clear.
      generalize (Z.to_nat index). induction (cache st) as [|x c IH];
        intros [|i]; simpl; try lia. specialize (IH i). lia.
  - split; simpl; [constructor|lia].
Qed.

Lemma sound_run (ops : list operation) (st : state) :
  sound fn st -> sound fn (run h stack fn fn_length comparisonFn ops st).
Proof.
  revert st. induction ops as [|o ops IH]; intros st Hs; [done|].
  simpl. apply IH. by apply sound_step.
Qed.

(** Repeating a call that returned, with arguments the predicate finds
    equivalent to themselves, is answered from the cache and changes nothing. *)
Lemma memoizedFn_again (st st' : state) args v :
  P args args = Returned true ->
  memoizedFn h stack fn comparisonFn args st = (Returned v, st') ->
  memoizedFn h stack fn comparisonFn args st' = (Returned v, st').
Proof.
  intros Hrefl Hcall. pose proof Hcall as Hcall'. unfold memoizedFn in Hcall.
  destruct (findCacheIndex _ _ _ _ _) as [index|] eqn:Hidx; [|done].
  destruct (negb _).
  - destruct (cache st !! Z.to_nat index); [|done].
    injection Hcall as _ <-. exact Hcall'.
  - destruct (fn args) as [v0|]; [|done]. injection Hcall as <- <-.
    apply (memoizedFn_hit h stack fn comparisonFn _ args []
             {| key := args; value := v0 |} (cache st)); done.
Qed.

End CacheMore.

(** X10. After any sequence of operations on a fresh memoized function, every
    cache entry holds the value [fn] returns for its key, under a key [fn] was
    really invoked with, and the cache has no more entries than [fn] had
    invocations.  A call that returns therefore returns [fn(args)] itself or
    [fn(key)] for an earlier argument list [key] that the predicate finds
    equivalent to [args]. *)
Theorem cache_sound {T : Type} (h : heap) (stack : nat)
    (fn : list val -> outcome T) (fn_length : nat)
    (comparisonFn : option (list val -> list val -> outcome bool))
    (ops : list operation) :
  sound fn (run h stack fn fn_length comparisonFn ops memoize) /\
  (forall args v st',
     memoizedFn h stack fn comparisonFn args
       (run h stack fn fn_length comparisonFn ops memoize) = (Returned v, st') ->
     fn args = Returned v \/
     exists k,
       activePredicate h stack comparisonFn k args = Returned true /\
       k ∈ invoked (run h stack fn fn_length comparisonFn ops memoize) /\
       fn k = Returned v).
Proof.
  assert (Hs : sound fn (run h stack fn fn_length comparisonFn ops memoize)).
  { apply sound_run. split; simpl; [constructor|lia]. }
  split; [done|]. intros args v st' Hcall.
  destruct Hs as [Hall _]. unfold memoizedFn in Hcall.
  destruct (findCacheIndex _ _ _ _ _) as [index|] eqn:Hidx; [|done].
  destruct (negb _) eqn:Hneg.
  - apply findCacheIndex_spec in Hidx
      as [[-> _]|(pre & e & post & Hc & _ & He & ->)]; [done|].
    rewrite Hc, Nat2Z.id, list_lookup_middle in Hcall by done.
    injection Hcall as <- _. right. exists (key e).
    rewrite Hc in Hall. apply Forall_app in Hall as [_ Hall].
    apply Forall_cons in Hall as [[Hv Hk] _]. done.
  - destruct (fn args); [|done]. injection Hcall as <- _. by left.
Qed.

(** X11. A call that returned, with arguments the active predicate finds
    equivalent to themselves, is memoized: calling again with the same
    arguments, any number of times, returns the same value from the cache and
    changes neither the cache nor the record of invocations. *)
Theorem memoizedFn_repeat {T : Type} (h : heap) (stack : nat)
    (fn : list val -> outcome T) (fn_length : nat)
    (comparisonFn : option (list val -> list val -> outcome bool))
    (st st' : state) (args : list val) (v : T) (n : nat) :
  activePredicate h stack comparisonFn args args = Returned true ->
  memoizedFn h stack fn comparisonFn args st = (Returned v, st') ->
  memoizedFn h stack fn comparisonFn args st' = (Returned v, st') /\
  run h stack fn fn_length comparisonFn (replicate n (Call args)) st' = st'.
Proof.
  intros Hrefl Hcall.
  pose proof (memoizedFn_again h stack fn comparisonFn st st' args v Hrefl Hcall)
    as Hagain.
  split; [done|]. induction n as [|n IH]; [done|].
  change (run h stack fn fn_length comparisonFn (replicate (S n) (Call args)) st')
    with (run h stack fn fn_length comparisonFn (replicate n (Call args))
            (memoizedFn h stack fn comparisonFn args st').2).
  by rewrite Hagain.
Qed.

Lemma memoizedFn_repeat_witness :
  memoizedFn Shapes.store 4 Shapes.first_arg None [Shapes.mapA1]
    Shapes.one_map_cached = (Returned Shapes.mapA1, Shapes.one_map_cached) /\
  run Shapes.store 4 Shapes.first_arg 1 None
    (replicate 5 (Call [Shapes.mapA1])) Shapes.one_map_cached
  = Shapes.one_map_cached.
Proof.
  apply (memoizedFn_repeat Shapes.store 4 Shapes.first_arg 1 None
           memoize Shapes.one_map_cached [Shapes.mapA1] Shapes.mapA1 5);
    by vm_compute.
Defined.

Lemma every2_self h d l :
  NaN ∉ l -> every2 (compareValues h (S d)) l l = Some true.
Proof.
  induction l as [|x l IH]; intros Hnan; [done|]. cbn [every2].
  rewrite compareValues_identical.
  - apply IH. intros Hin. apply Hnan. by apply list_elem_of_further.
  - apply strict_equals_refl. intros ->. apply Hnan. apply list_elem_of_here.
Qed.

(** X12. The default predicate finds every argument list without [NaN]
    equivalent to itself, whatever the arguments point to (cyclic structures
    included, thanks to the identity shortcut); so with the default comparator
    a call that returned is answered from the cache when it is repeated. *)
Theorem default_predicate_reflexive {T : Type} (h : heap) (stack : nat)
    (fn : list val -> outcome T) (args : list val) :
  NaN ∉ args -> 2 <= stack ->
  activePredicate h stack None args args = Returned true /\
  (forall (st st' : state) v,
     memoizedFn h stack fn None args st = (Returned v, st') ->
     memoizedFn h stack fn None args st' = (Returned v, st')).
Proof.
  intros Hnan Hs.
  assert (Hrefl : activePredicate h stack None args args = Returned true).
  { unfold activePredicate, compareValues_args, compareFreshArrays.
    destruct stack as [|[|d]]; [lia..|]. rewrite compareArrays_every2.
    by rewrite Nat.eqb_refl, every2_self. }
  split; [done|]. intros st st' v. by apply memoizedFn_again.
Qed.

Lemma default_predicate_reflexive_witness :
  activePredicate ListNodes.store 2 None [ListNodes.m3; num 1] [ListNodes.m3; num 1]
  = Returned true.
Proof.
  refine (proj1 (default_predicate_reflexive (T:=val) ListNodes.store 2
                   Shapes.first_arg [ListNodes.m3; num 1] _ _)); [|lia].
  intros Hin. repeat (apply elem_of_cons in Hin as [Hin|Hin]; [discriminate|]).
  by apply elem_of_nil in Hin.
Defined.

(** X13. The index the lookup returns is [-1] or the position of an entry of
    the cache, so reading [cache[index]] never fails: a call of the memoized
    function throws only what the comparison threw, and then leaves the state
    as it was, or what running [fn] on a miss ended in, and then adds no
    entry of its own to the state [fn] left behind. *)
Theorem memoizedFn_throws_only {T : Type} (h : heap) (stack : nat)
    (fn : list val -> prog T) (fn_length : nat)
    (comparisonFn : option (list val -> list val -> outcome bool))
    (depth : nat) (st st' : state) (args : list val) (e : exn) :
  memoizedFn_reentrant h stack fn fn_length comparisonFn (S depth) args st
    = (Thrown e, st') ->
  (findCacheIndex h stack comparisonFn (cache st) args = Thrown e /\ st' = st) \/
  (findCacheIndex h stack comparisonFn (cache st) args = Returned (-1)%Z /\
   exec h stack fn_length comparisonFn
        (memoizedFn_reentrant h stack fn fn_length comparisonFn depth) (fn args)
        {| cache := cache st; invoked := args :: invoked st |} = (Thrown e, st')).
Proof.
  cbn [memoizedFn_reentrant].
  destruct (findCacheIndex _ _ _ _ _) as [index|e0] eqn:Hidx.
  - destruct (negb _) eqn:Hneg.
    + apply findCacheIndex_spec in Hidx
        as [[-> _]|(pre & x & post & Hc & _ & _ & ->)]; [done|].
      by rewrite Hc, Nat2Z.id, list_lookup_middle.
    + apply negb_false_iff, Z.eqb_eq in Hneg as ->.
      destruct (exec _ _ _ _ _ _ _) as [[v|e1] st1]; [done|].
      intros [= -> <-]. by right.
  - intros [= -> <-]. by left.
Qed.

Lemma memoizedFn_throws_only_witness :
  (findCacheIndex Shapes.store 4 None (cache (memoize (T:=val))) [num 1]
   = Thrown (Raised (Str "failed")) /\
   {| cache := [{| key := [num 0]; value := num 0 |}];
      invoked := [[num 0]; [num 1]] |} = memoize) \/
  (findCacheIndex Shapes.store 4 None (cache (memoize (T:=val))) [num 1]
   = Returned (-1)%Z /\
   exec Shapes.store 4 1 None
        (memoizedFn_reentrant Shapes.store 4 Recursive.g 1 None 4)
        (Recursive.g [num 1])
        {| cache := cache (memoize (T:=val));
           invoked := [num 1] :: invoked (memoize (T:=val)) |}
   = (Thrown (Raised (Str "failed")),
      {| cache := [{| key := [num 0]; value := num 0 |}];
         invoked := [[num 0]; [num 1]] |})).
Proof.
  apply (memoizedFn_throws_only Shapes.store 4 Recursive.g 1 None 4 memoize
           {| cache := [{| key := [num 0]; value := num 0 |}];
              invoked := [[num 0]; [num 1]] |}
           [num 1] (Raised (Str "failed"))).
  by vm_compute.
Defined.

(** X14. A memoized function of no arguments invokes [fn] once: the first
    call stores the result under the empty argument list, and every later
    call returns it from the cache (one level of stack is enough for the
    lookup).  Its [clearEntry] does not exist: calling it throws and changes
    nothing. *)
Theorem memoize_nullary {T : Type} (h : heap) (stack : nat)
    (fn : list val -> outcome T) (v : T) (n : nat) :
  1 <= stack -> fn [] = Returned v ->
  run h stack fn 0 None (replicate (S n) (Call [])) memoize
  = {| cache := [{| key := []; value := v |}]; invoked := [[]] |} /\
  (forall (st : state) args,
     clearEntry (T:=T) h stack 0 None args st = (Thrown TypeError, st)).
Proof.
  intros Hs Hv. split; [|done].
  assert (Hrefl : activePredicate h stack None [] [] = Returned true).
  { unfold activePredicate, compareValues_args, compareFreshArrays.
    by destruct stack as [|d]; [lia|]. }
  assert (Hfirst : memoizedFn h stack fn None [] memoize
                   = (Returned v,
                      {| cache := [{| key := []; value := v |}];
                         invoked := [[]] |})).
  { unfold memoizedFn. simpl. by rewrite Hv. }
  change (run h stack fn 0 None (replicate (S n) (Call [])) memoize)
    with (run h stack fn 0 None (replicate n (Call []))
            (memoizedFn h stack fn None [] memoize).2).
  rewrite Hfirst. cbn [snd].
  apply (memoizedFn_repeat h stack fn 0 None memoize _ [] v n Hrefl Hfirst).
Qed.

Lemma memoize_nullary_witness :
  run Shapes.store 1 (fun _ => Returned (num 42)) 0 None
      (replicate 4 (Call [])) memoize
  = {| cache := [{| key := []; value := num 42 |}]; invoked := [[]] |}.
Proof.
  refine (proj1 (memoize_nullary Shapes.store 1 (fun _ => Returned (num 42))
                   (num 42) 3 _ _)); [lia|reflexivity].
Defined.

(** X15. On argument lists of primitive values the default predicate is
    [===] position by position, on lists of the same length; it does not look
    at the store. *)
Theorem default_predicate_primitives (h : heap) (stack : nat)
    (keyArgs args : list val) :
  2 <= stack ->
  Forall (fun k => is_primitive k = true) keyArgs ->
  activePredicate h stack None keyArgs args
  = Returned (Nat.eqb (length keyArgs) (length args)
              && forallb (fun p => strict_equals p.1 p.2) (zip keyArgs args)).
Proof.
  intros Hs Hprim.
  unfold activePredicate, compareValues_args, compareFreshArrays.
  destruct stack as [|[|d]]; [lia..|]. rewrite compareArrays_every2.
  destruct (Nat.eqb (length keyArgs) (length args)); [|done]. cbn [negb andb].
  rewrite (every2_primitive _ keyArgs args); [done|].
  intros x y Hx. apply compareValues_primitive.
  by apply (proj1 (Forall_forall _ _) Hprim).
Qed.

Lemma default_predicate_primitives_witness :
  activePredicate Shapes.store 2 None [num 3; Str "w"] [num 3; Str "w"]
    = Returned true /\
  activePredicate ∅ 2 None [num 3; Str "w"] [num 3; Str "v"] = Returned false.
Proof.
  split.
  - rewrite (default_predicate_primitives Shapes.store 2 [num 3; Str "w"]
               [num 3; Str "w"]); [reflexivity|lia|repeat constructor].
  - rewrite (default_predicate_primitives ∅ 2 [num 3; Str "w"]
               [num 3; Str "v"]); [reflexivity|lia|repeat constructor].
Defined.

Section InsertionOrder.
Context {T : Type}.
Variable h : heap.
Variable stack : nat.
Variable fn : list val -> prog T.
Variable fn_length : nat.
Variable comparisonFn : option (list val -> list val -> outcome bool).

Let P := activePredicate h stack comparisonFn.

Lemma run_reentrant_distinct_calls depth (calls : list (list val * T))
    (st : state) :
  Forall (fun c => fn c.1 = Ret c.2) calls ->
  Forall (fun c => Forall (fun e => P (key e) c.1 = Returned false) (cache st))
         calls ->
  (forall i j a b, i < j -> calls !! i = Some a -> calls !! j = Some b ->
                   P a.1 b.1 = Returned false) ->
  run_reentrant h stack fn fn_length comparisonFn (S depth) (Call <$> calls.*1) st
  = {| cache := reverse ((fun c => {| key := c.1; value := c.2 |}) <$> calls)
                ++ cache st;
       invoked := reverse calls.*1 ++ invoked st |}.
Proof.
  revert st. induction calls as [|[a v] calls IH]; intros st Hfn Hold Hnew.
  - by destruct st.
  - apply Forall_cons in Hfn as [Hv Hfn]. apply Forall_cons in Hold as [Ha Hold].
    simpl in Hv, Ha.
    change (run_reentrant h stack fn fn_length comparisonFn (S depth)
              (Call <$> ((a, v) :: calls).*1) st)
      with (run_reentrant h stack fn fn_length comparisonFn (S depth)
              (Call <$> calls.*1)
              (memoizedFn_reentrant h stack fn fn_length comparisonFn (S depth)
                 a st).2).
    rewrite memoizedFn_reentrant_miss
      by (unfold findCacheIndex, findIndex; by rewrite findIndex_from_miss).
    rewrite Hv. cbn [exec snd].
    rewrite IH; [| done | |].
    + cbn [cache invoked fmap list_fmap fst snd]. rewrite !reverse_cons.
      by rewrite <- !app_assoc.
    + cbn [cache]. apply Forall_forall. intros c Hc. constructor.
      * apply list_elem_of_lookup in Hc as [j Hj]. simpl.
        apply (Hnew 0 (S j) (a, v) c); [lia|done|done].
      * by apply (proj1 (Forall_forall _ _) Hold).
    + intros i j x y Hij Hx Hy. apply (Hnew (S i) (S j)); [lia|done|done].
Qed.

End InsertionOrder.

(** A call on which [fn] calls the memoized function leaves the entries of
    the nested calls as well, the outer call in front: one call of
    [countdown(3)] ends with three entries and three runs of [fn]. *)
Lemma countdown_entries :
  run_reentrant ∅ 2 Recursive.countdown 1 None 5 [Call [num 3]] memoize
  = {| cache := [{| key := [num 3]; value := num 1 |};
                 {| key := [num 2]; value := num 1 |};
                 {| key := [num 1]; value := num 1 |}];
       invoked := [[num 1]; [num 2]; [num 3]] |}.
Proof. by vm_compute. Qed.

(** X16. New entries go to the front: a fresh memoized function called with
    argument lists none of which the predicate finds equivalent to an earlier
    one, and on each of which [fn] returns without using the memoized
    function, ends with one cache entry per call, the most recent call first,
    and [fn] run once per call. *)
Theorem memoize_insertion_order {T : Type} (h : heap) (stack : nat)
    (fn : list val -> prog T) (fn_length : nat)
    (comparisonFn : option (list val -> list val -> outcome bool))
    (depth : nat) (calls : list (list val * T)) :
  Forall (fun c => fn c.1 = Ret c.2) calls ->
  (forall i j a b, i < j -> calls !! i = Some a -> calls !! j = Some b ->
     activePredicate h stack comparisonFn a.1 b.1 = Returned false) ->
  run_reentrant h stack fn fn_length comparisonFn (S depth) (Call <$> calls.*1)
    memoize
  = {| cache := reverse ((fun c => {| key := c.1; value := c.2 |}) <$> calls);
       invoked := reverse calls.*1 |}.
Proof.
  intros Hfn Hnew.
  rewrite (run_reentrant_distinct_calls h stack fn fn_length comparisonFn depth
             calls memoize); try done.
  - simpl. by rewrite !app_nil_r.
  - apply Forall_forall. intros c _. constructor.
Qed.

Lemma memoize_insertion_order_witness :
  run_reentrant ∅ 2 Recursive.countdown 1 None 1
      [Call [num 1]; Call [num 0]; Call [Str "w"]] memoize
  = {| cache := [{| key := [Str "w"]; value := Str "w" |};
                 {| key := [num 0]; value := num 0 |};
                 {| key := [num 1]; value := num 1 |}];
       invoked := [[Str "w"]; [num 0]; [num 1]] |}.
Proof.
  apply (memoize_insertion_order ∅ 2 Recursive.countdown 1 None 0
           [([num 1], num 1); ([num 0], num 0); ([Str "w"], Str "w")]).
  - repeat constructor.
  - intros i j a b Hij Ha Hb.
    destruct i as [|[|[|i]]], j as [|[|[|j]]]; simpl in Ha, Hb; try lia;
      try discriminate; injection Ha as <-; injection Hb as <-; reflexivity.
Defined.

(** * Comparisons that return *)

Lemma every_from_returns {A} (f : A -> nat -> option bool) i a :
  (forall x j, x ∈ a -> exists b, f x j = Some b) ->
  exists b, every_from f i a = Some b.
Proof.
  revert i. induction a as [|x a IH]; intros i Hf; simpl; [by eexists|].
  destruct (Hf x i) as [[] ->]; [apply list_elem_of_here| |by eexists].
  apply IH. intros y j Hy. apply Hf. by apply list_elem_of_further.
Qed.

Lemma compareArrays_returns (f : val -> val -> option bool) ls rs :
  (forall x j, x ∈ ls -> exists b, f x (js_index rs j) = Some b) ->
  exists b, compareArrays f ls rs = Some b.
Proof.
  intros Hf. unfold compareArrays, every. destruct (negb _); [by eexists|].
  by apply every_from_returns.
Qed.

Lemma every_present_from_returns {A} (f : A -> nat -> option bool) i a :
  (forall x j, Some x ∈ a -> exists b, f x j = Some b) ->
  exists b, every_present_from f i a = Some b.
Proof.
  revert i. induction a as [|[x|] a IH]; intros i Hf; simpl; [by eexists| |].
  - destruct (Hf x i) as [[] ->]; [apply list_elem_of_here| |by eexists].
    apply IH. intros y j Hy. apply Hf. by apply list_elem_of_further.
  - apply IH. intros y j Hy. apply Hf. by apply list_elem_of_further.
Qed.

Lemma compareSlots_returns (f : val -> val -> option bool) ls rs :
  (forall x j, Some x ∈ ls -> exists b, f x (slot_index rs j) = Some b) ->
  exists b, compareSlots f ls rs = Some b.
Proof.
  intros Hf. unfold compareSlots, every_present. destruct (negb _); [by eexists|].
  by apply every_present_from_returns.
Qed.

Lemma rank_below_mono rk k n v :
  k <= n -> rank_below rk k v = true -> rank_below rk n v = true.
Proof.
  intros Hkn. destruct v as [| | | | | | |l]; try done. simpl.
  destruct (rk !! l) as [j|]; [|done].
  rewrite !Nat.ltb_lt. lia.
Qed.

Lemma js_index_below rk n rs j :
  Forall (fun v => rank_below rk n v = true) rs ->
  rank_below rk n (js_index rs j) = true.
Proof.
  intros Hall. unfold js_index. destruct (rs !! j) as [v|] eqn:Hj; [|done].
  simpl. apply (proj1 (Forall_forall _ _) Hall). by eapply list_elem_of_lookup_2.
Qed.

Lemma object_entries_children o k v :
  (k, v) ∈ object_entries o -> v ∈ children o.
Proof.
  destruct o; simpl; try by intros ?%elem_of_nil.
  - intros (i & x & [= _ <-] & Hx)%elem_of_lookup_imap.
    by eapply list_elem_of_lookup_2.
  - intros (slot & Hslot & Hkv)%list_elem_of_omap. simpl in Hkv. subst slot.
    apply elem_of_lookup_imap in Hslot as (i & [x|] & Hx & Hi); [|done].
    injection Hx as _ <-. apply list_elem_of_omap. exists (Some v).
    split; [by eapply list_elem_of_lookup_2|done].
  - intros Hin. apply list_elem_of_fmap. by exists (k, v).
Qed.

(** The elements of an array are among the values it holds, and what it
    reads at any index is one of them or [undefined]. *)
Lemma as_array_children h l slots x :
  as_array h (Ref l) = Some slots -> Some x ∈ slots -> x ∈ children (object_of h l).
Proof.
  simpl. destruct (object_of h l); try done; intros [= <-]; simpl.
  - intros (y & [= ->] & Hy)%list_elem_of_fmap. done.
  - intros Hx. apply list_elem_of_omap. by exists (Some x).
Qed.

Lemma slot_index_below h rk n l slots j :
  as_array h (Ref l) = Some slots ->
  Forall (fun v => rank_below rk n v = true) (children (object_of h l)) ->
  rank_below rk n (slot_index slots j) = true.
Proof.
  intros Hl Hall. unfold slot_index.
  destruct (slots !! j) as [[v|]|] eqn:Hj; [|done..].
  apply (proj1 (Forall_forall _ _) Hall).
  eapply as_array_children; [done|]. by eapply list_elem_of_lookup_2.
Qed.

Lemma get_prop_below rk n o k :
  Forall (fun v => rank_below rk n v = true) (children o) ->
  rank_below rk n (get_prop o k) = true.
Proof.
  intros Hall. unfold get_prop.
  destruct (List.find _ _) as [[k' v]|] eqn:Hf; [|done].
  apply find_some in Hf as [Hin _]. apply list_elem_of_In in Hin.
  apply (proj1 (Forall_forall _ _) Hall). by eapply object_entries_children.
Qed.

Lemma map_get_below rk n entries k :
  Forall (fun v => rank_below rk n v = true) entries.*2 ->
  rank_below rk n (map_get entries k) = true.
Proof.
  intros Hall. unfold map_get.
  destruct (List.find _ _) as [[k' v]|] eqn:Hf; [|done].
  apply find_some in Hf as [Hin _]. apply list_elem_of_In in Hin.
  apply (proj1 (Forall_forall _ _) Hall).
  apply list_elem_of_fmap. by exists (k', v).
Qed.

Lemma ranked_children h rk l k :
  ranked h rk = true -> rk !! l = Some k ->
  Forall (fun v => rank_below rk k v = true) (children (object_of h l)).
Proof.
  intros Hr Hl. unfold ranked in Hr. rewrite forallb_forall in Hr.
  assert (Hin : In (l, k) (map_to_list rk))
    by (apply list_elem_of_In; by apply elem_of_map_to_list).
  specialize (Hr _ Hin). simpl in Hr. rewrite forallb_forall in Hr.
  apply Forall_forall. intros v Hv. apply Hr. by apply list_elem_of_In.
Qed.

Lemma ranked_children_below h rk n v :
  ranked h rk = true -> is_primitive v = false ->
  rank_below rk (S n) v = true ->
  Forall (fun x => rank_below rk n x = true) (children (to_object h v)).
Proof.
  intros Hr Hp Hb. destruct v as [| | | | | | |l]; try done. simpl in *.
  destruct (rk !! l) as [k|] eqn:Hl; [|done]. apply Nat.ltb_lt in Hb.
  eapply Forall_impl; [by eapply ranked_children|].
  intros x. apply rank_below_mono. lia.
Qed.

Section Returns.
Variable h : heap.

(** A pair of distinct objects one of which is a function. *)
Lemma compareValues_function_pair fuel l r :
  l <> r ->
  generic_pair (object_of h l) (object_of h r) = false ->
  as_array h (Ref l) = None \/ as_array h (Ref r) = None ->
  as_map (object_of h l) = None \/ as_map (object_of h r) = None ->
  compareValues h (S fuel) (Ref l) (Ref r) = Some false.
Proof.
  intros Hlr Hg Ha Hm.
  cbn [compareValues strict_equals typeof as_array to_object is_null orb] in *.
  apply Nat.eqb_neq in Hlr. rewrite Hlr.
  destruct (object_of h l), (object_of h r); try discriminate Hg;
    try (by destruct Ha); try (by destruct Hm); reflexivity.
Qed.

Lemma object_of_map l entries :
  object_of h l = MapObj entries -> h !! l = Some (MapObj entries).
Proof. unfold object_of. destruct (h !! l); simpl; congruence. Qed.

Variable rk : gmap loc nat.
Hypothesis Hranked : ranked h rk = true.

Lemma compareValues_returns_ranked n left right :
  rank_below rk n left = true \/ rank_below rk n right = true ->
  exists b, compareValues h (2 * n + 2) left right = Some b.
Proof.
  revert left right. induction n as [|n IH]; intros left right Hb.
  all: destruct (is_primitive left) eqn:Hpl;
    [match goal with
     | |- context [compareValues h ?f] => replace f with (S (Nat.pred f)) by lia
     end; rewrite compareValues_primitive by done; by eexists|].
  all: destruct (is_primitive right) eqn:Hpr;
    [match goal with
     | |- context [compareValues h ?f] => replace f with (S (Nat.pred f)) by lia
     end; rewrite compareValues_primitive_r by done; by eexists|].
  { destruct left, right; simpl in *; try done.
    destruct Hb as [Hb|Hb]; by destruct (rk !! _). }
  assert (Hch : Forall (fun x => rank_below rk n x = true) (children (to_object h left))
             \/ Forall (fun x => rank_below rk n x = true) (children (to_object h right))).
  { destruct Hb; [left|right]; by apply ranked_children_below. }
  replace (2 * S n + 2) with (S (S (2 * n + 2))) by lia.
  set (F := 2 * n + 2) in *.
  assert (HF : forall x y,
            rank_below rk n x = true \/ rank_below rk n y = true ->
            exists b, compareValues h F x y = Some b) by exact IH.
  assert (HSF : forall x y,
            rank_below rk n x = true \/ rank_below rk n y = true ->
            exists b, compareValues h (S F) x y = Some b).
  { intros x y Hxy. destruct (HF x y Hxy) as [b Hxyb]. exists b.
    apply (compareValues_mono h F (S F)); [lia|done]. }
  destruct left as [| | | | | | |l]; try done.
  destruct right as [| | | | | | |r]; try done.
  cbn [to_object] in Hch.
  destruct (decide (l = r)) as [->|Hlr].
  { exists true. apply compareValues_identical. simpl. apply Nat.eqb_refl. }
  destruct (generic_pair (object_of h l) (object_of h r)) eqn:Hg.
  - rewrite compareValues_generic by done. cbv zeta.
    destruct (negb _); [by eexists|].
    unfold F at 1. replace (2 * n + 2) with (S (S (2 * n))) by lia.
    rewrite compareFreshArrays_keys.
    destruct (bool_decide _); [|by eexists].
    apply every_from_returns. intros [k v] j Hkv. apply HSF. simpl.
    destruct Hch as [Hl|Hr].
    + left. apply (proj1 (Forall_forall _ _) Hl).
      by eapply object_entries_children.
    + right. by apply get_prop_below.
  - destruct (as_array h (Ref l)) as [ls|] eqn:Al,
             (as_array h (Ref r)) as [rs|] eqn:Ar.
    { rewrite (compareValues_arrays_step h _ l r ls rs) by done.
      apply compareSlots_returns. intros x j Hx. apply HSF.
      destruct Hch as [Hcl|Hcr].
      - left. apply (proj1 (Forall_forall _ _) Hcl). by eapply as_array_children.
      - right. by eapply slot_index_below. }
    all: destruct (object_of h l) as [ls'|lss|lm| | | |] eqn:El,
                  (object_of h r) as [rs'|rss|rm| | | |] eqn:Er;
      try discriminate Hg;
      try (simpl in Al; rewrite El in Al; discriminate Al);
      try (simpl in Ar; rewrite Er in Ar; discriminate Ar).
    all: try (exists false; apply compareValues_function_pair;
              rewrite ?El, ?Er; simpl; rewrite ?El, ?Er; by auto).
    + assert (Hl : h !! l = Some (MapObj lm)) by by apply object_of_map.
      assert (Hr : h !! r = Some (MapObj rm)) by by apply object_of_map.
      rewrite (compareValues_maps h _ l r lm rm) by done.
      destruct (negb _); [by eexists|].
      simpl in Hch. rewrite !Forall_app in Hch.
      assert (Hkeys : exists b, compareFreshArrays h (S F) lm.*1 rm.*1 = Some b).
      { unfold compareFreshArrays. apply compareArrays_returns.
        intros x j Hx. apply HF. destruct Hch as [[Hk _]|[Hk _]].
        - left. by apply (proj1 (Forall_forall _ _) Hk).
        - right. by apply js_index_below. }
      destruct Hkeys as [[] ->]; [|by eexists].
      apply every_from_returns. intros [k v] j Hkv. apply HSF. simpl.
      destruct Hch as [[_ Hv]|[_ Hv]].
      * left. apply (proj1 (Forall_forall _ _) Hv).
        apply list_elem_of_fmap. by exists (k, v).
      * right. by apply map_get_below.
Qed.

End Returns.

(** X17. The comparison returns whenever one of the two values is free of
    cycles, even if the other is not: if the objects reachable from [left], or
    those reachable from [right], can be ranked so that each holds only
    primitives and objects of lower rank, [compareValues(left, right)] returns
    within a stack depth of twice the rank plus two. *)
Theorem compareValues_returns_acyclic (h : heap) (rk : gmap loc nat) (n : nat)
    (left right : val) :
  ranked h rk = true ->
  rank_below rk n left = true \/ rank_below rk n right = true ->
  exists b, compareValues h (2 * n + 2) left right = Some b.
Proof. intros Hr Hb. by apply (compareValues_returns_ranked h rk). Qed.

Lemma compareValues_returns_acyclic_witness :
  exists b, compareValues ListNodes.store 8 ListNodes.n3 ListNodes.p3 = Some b.
Proof.
  refine (compareValues_returns_acyclic ListNodes.store Samples.p_ranks 3
            ListNodes.n3 ListNodes.p3 _ _); [by vm_compute|].
  right. by vm_compute.
Defined.

(** X18. The answer of a comparison does not depend on the stack depth it
    is given: whenever it returns at two depths, it returns the same answer,
    and once it returns at some depth it returns at every greater one. *)
Theorem compareValues_depth_independent (h : heap) (n m : nat)
    (left right : val) (b : bool) :
  compareValues h n left right = Some b ->
  (forall b', compareValues h m left right = Some b' -> b' = b) /\
  (n <= m -> compareValues h m left right = Some b).
Proof.
  intros Hn. split.
  - intros b' Hm.
    pose proof (compareValues_mono h n (n `max` m) left right b ltac:(lia) Hn) as H1.
    pose proof (compareValues_mono h m (n `max` m) left right b' ltac:(lia) Hm) as H2.
    congruence.
  - intros Hnm. by apply (compareValues_mono h n m).
Qed.

Lemma compareValues_depth_independent_witness :
  compareValues ListNodes.store 40 ListNodes.n3 ListNodes.p3 = Some false.
Proof.
  refine (proj2 (compareValues_depth_independent ListNodes.store 5 40
                   ListNodes.n3 ListNodes.p3 false _) _); [by vm_compute|lia].
Defined.

(** X19. A function is equal to itself and to nothing else: comparing a
    function with any value, in either position, gives the answer of [===]
    without recursion. *)
Theorem compareValues_function_identity (h : heap) (fuel : nat) (l : loc)
    (code : string) (v : val) :
  h !! l = Some (FunctionObj code) ->
  compareValues h (S fuel) (Ref l) v = Some (strict_equals (Ref l) v) /\
  compareValues h (S fuel) v (Ref l) = Some (strict_equals v (Ref l)).
Proof.
  intros Hl.
  assert (El : object_of h l = FunctionObj code) by (unfold object_of; by rewrite Hl).
  split.
  - destruct (is_primitive v) eqn:Hp; [by apply compareValues_primitive_r|].
    destruct v as [| | | | | | |r]; try done.
    cbn [compareValues strict_equals typeof as_array to_object is_null orb].
    rewrite El. destruct (Nat.eqb l r); [done|].
    by destruct (object_of h r).
  - destruct (is_primitive v) eqn:Hp; [by apply compareValues_primitive|].
    destruct v as [| | | | | | |r]; try done.
    cbn [compareValues strict_equals typeof as_array to_object is_null orb].
    rewrite El. destruct (Nat.eqb r l); [done|].
    by destruct (object_of h r).
Qed.

Lemma compareValues_function_identity_witness :
  compareValues Shapes.store 1 Shapes.negate1 Shapes.negate2 = Some false /\
  compareValues Shapes.store 1 Shapes.emptyObject Shapes.negate1 = Some false.
Proof.
  split.
  - apply (compareValues_function_identity Shapes.store 0 9 "(n) => -n"
             Shapes.negate2). reflexivity.
  - apply (compareValues_function_identity Shapes.store 0 9 "(n) => -n"
             Shapes.emptyObject). reflexivity.
Defined.

Lemma cache_sound_witness :
  Shapes.first_arg [Shapes.emptyObject] = Returned Shapes.mapA2 \/
  exists k,
    activePredicate Shapes.store 4 None k [Shapes.emptyObject] = Returned true /\
    k ∈ invoked Shapes.two_maps_cached /\
    Shapes.first_arg k = Returned Shapes.mapA2.
Proof.
  refine (proj2 (cache_sound Shapes.store 4 Shapes.first_arg 1 None
                   [Call [Shapes.mapA1]; Call [Shapes.mapA2]])
            [Shapes.emptyObject] Shapes.mapA2 Shapes.two_maps_cached _).
  by vm_compute.
Defined.
